(** * scripts/convert.py: from a parent/child table to a family tree

    A shallow embedding of the conversion script and the properties of
    its functions [normalize_cell], [build_parent_child_map], [make_node],
    [build_tree], [clean_name] and [transform_names].

    Python values are embedded as follows.
    - A [str] is a [string] where the script is run on ASCII text: on
      ASCII characters [str.strip], [str.lower], [str.capitalize] and the
      classes of the [re] module are reproduced exactly, and a character
      code from 128 up is left alone by every operation, which is not what
      CPython does with the letters, blanks and digits beyond ASCII.  What
      is said of [normalize_cell] and [clean_name] for every string is
      therefore said in the module [U], where a [str] is the list of its
      code points and the tables of Unicode are parameters.
    - A cell of the data frame is the text [str(cell)] of its value.
    - The [OrderedDict] of the adjacency map is an association list in
      insertion order, with the dictionary's own lookup and assignment.
    - A [set] of names is a [gset string].
    - A node [{"name": n, "children": [...]}] is a constructor [Node]. *)

From stdpp Require Import gmap strings list.
From Stdlib Require Import Ascii.

Set Warnings "-clear-no-such-hyp".

(** ** Characters and the [str] methods the script calls *)

Module Py.

Definition code (c : ascii) : nat := nat_of_ascii c.

(** [c.isspace()] on ASCII: TAB, LF, VT, FF, CR, the four separators
    FS, GS, RS and US, and the space.  (The blanks beyond ASCII, which
    [str.strip] removes too, are not blanks here.) *)
Definition isspace (c : ascii) : bool :=
  let n := code c in
  ((9 <=? n) && (n <=? 13)) || ((28 <=? n) && (n <=? 32)).

Definition isupper (c : ascii) : bool :=
  let n := code c in (65 <=? n) && (n <=? 90).

Definition islower (c : ascii) : bool :=
  let n := code c in (97 <=? n) && (n <=? 122).

(** The class [\d] of the [re] module, on ASCII text. *)
Definition isdigit (c : ascii) : bool :=
  let n := code c in (48 <=? n) && (n <=? 57).

Definition lower_char (c : ascii) : ascii :=
  if isupper c then ascii_of_nat (code c + 32) else c.

Definition upper_char (c : ascii) : ascii :=
  if islower c then ascii_of_nat (code c - 32) else c.

(** [s.lower()], on ASCII text *)
Fixpoint lower (s : string) : string :=
  match s with
  | "" => ""
  | String c s' => String (lower_char c) (lower s')
  end.

(** [s.capitalize()], on ASCII text: the first character in upper case,
    the others in lower case. *)
Definition capitalize (s : string) : string :=
  match s with
  | "" => ""
  | String c s' => String (upper_char c) (lower s')
  end.

(** [s.lstrip()] *)
Fixpoint lstrip (s : string) : string :=
  match s with
  | "" => ""
  | String c s' => if isspace c then lstrip s' else s
  end.

(** [s.rstrip()]: a character goes exactly when it is blank and all that
    follows it went. *)
Fixpoint rstrip (s : string) : string :=
  match s with
  | "" => ""
  | String c s' =>
      match rstrip s' with
      | "" => if isspace c then "" else String c ""
      | r => String c r
      end
  end.

(** [s.strip()] *)
Definition strip (s : string) : string := lstrip (rstrip s).

(** [c in s] for a one-character string [c]. *)
Fixpoint contains (c : ascii) (s : string) : bool :=
  match s with
  | "" => false
  | String d s' => if decide (c = d) then true else contains c s'
  end.

(** Truth value of a string: [bool(s)], false only for the empty one. *)
Definition truthy (s : string) : bool :=
  match s with "" => false | _ => true end.

End Py.

(** ** The two compiled patterns *)

(** The character class [[,;|]] of [SPLIT_RE]. *)
Definition is_delim (c : ascii) : bool :=
  match c with
  | ","%char | ";"%char | "|"%char => true
  | _ => false
  end.

(** [SPLIT_RE.split(s)] for [SPLIT_RE = re.compile(r'[,;|]+')].  The
    flag tells whether the scan is inside a run of delimiters, which the
    greedy [+] consumes whole.  The scan returns the parts from the
    current one on; a leading or a trailing run leaves an empty part, as
    [re.split] does. *)
Fixpoint split_scan (in_run : bool) (s : string) : list string :=
  match s with
  | "" => [""]
  | String c s' =>
      if is_delim c then
        if in_run then split_scan true s' else "" :: split_scan true s'
      else
        match split_scan false s' with
        | p :: ps => String c p :: ps
        | [] => [String c ""]
        end
  end.

Definition SPLIT_RE_split (s : string) : list string := split_scan false s.

Definition newline : ascii := "010"%char.

(** [s] with its leading digits gone: where the greedy [\d+] stops. *)
Fixpoint skip_digits (s : string) : string :=
  match s with
  | "" => ""
  | String c s' => if Py.isdigit c then skip_digits s' else s
  end.

(** Where [$] matches without the MULTILINE flag: at the end of the
    string, and just before a line feed that ends the string. *)
Definition at_dollar (rest : string) : bool :=
  bool_decide (rest = "") || bool_decide (rest = String newline "").

(** [NUM_SUFFIX_RE.sub("", s)] for [NUM_SUFFIX_RE = re.compile(r'\d+$')].
    The search goes through [s] from the left.  At a digit the greedy
    [\d+] takes the whole run of digits; if [$] matches there, the run is
    deleted and what is left of [s] (nothing, or the final line feed)
    holds no further match.  If [$] does not match there it matches after
    no shorter run either, that place being followed by a digit, so the
    character is kept and the search moves on. *)
Fixpoint NUM_SUFFIX_RE_sub_empty (s : string) : string :=
  match s with
  | "" => ""
  | String c s' =>
      if Py.isdigit c && at_dollar (skip_digits s') then skip_digits s'
      else String c (NUM_SUFFIX_RE_sub_empty s')
  end.

(** ** normalize_cell *)

(** The membership test [s in ["nan", "none"]]. *)
Definition is_missing (s : string) : bool :=
  bool_decide (s ∈ ["nan"; "none"]).

(** [',' in s or ';' in s or '|' in s] *)
Definition has_delim (s : string) : bool :=
  Py.contains ","%char s || Py.contains ";"%char s || Py.contains "|"%char s.

Definition normalize_cell (cell : string) : list string :=
  let s := Py.lower (Py.strip cell) in
  if negb (Py.truthy s) || is_missing s then []
  else if has_delim s then
    (fun p => Py.lower (Py.strip p))
      <$> filter (fun p => Py.truthy (Py.strip p) = true) (SPLIT_RE_split s)
  else [s].

(** ** The adjacency map: an [OrderedDict] from a parent to its children *)

Module OrderedDict.

Definition t : Type := list (string * list string).

(** [OrderedDict()] *)
Definition empty : t := [].

(** [d.get(k)]; [k in d] is [is_Some (get k d)]. *)
Fixpoint get (k : string) (d : t) : option (list string) :=
  match d with
  | [] => None
  | (k', v) :: d' => if decide (k = k') then Some v else get k d'
  end.

(** [d[k] = v]: a key that is present keeps its place, a new key goes
    to the end. *)
Fixpoint set (k : string) (v : list string) (d : t) : t :=
  match d with
  | [] => [(k, v)]
  | (k', v') :: d' =>
      if decide (k = k') then (k, v) :: d' else (k', v') :: set k v d'
  end.

(** [d.keys()] and [d.values()], in insertion order. *)
Definition keys (d : t) : list string := d.*1.
Definition values (d : t) : list (list string) := d.*2.

End OrderedDict.

(** ** build_parent_child_map *)

(** One turn of the loop that removes duplicates: the state is the pair
    of the set [seen] and the list [children]. *)
Definition dedup_step (st : gset string * list string) (ch : string)
  : gset string * list string :=
  if Py.truthy ch && bool_decide (ch ∉ st.1)
  then ({[ch]} ∪ st.1, st.2 ++ [ch])
  else st.

Definition dedup_children (raw_children : list string) : list string :=
  (foldl dedup_step (∅, []) raw_children).2.

(** One turn of the loop that merges into an entry that exists:
    [if ch not in pcm[parent]: pcm[parent].append(ch)]. *)
Definition merge_step (kids : list string) (ch : string) : list string :=
  if bool_decide (ch ∈ kids) then kids else kids ++ [ch].

(** The children a row brings: every cell after the first, normalized,
    one after the other. *)
Definition raw_children_of (cells : list string) : list string :=
  cells ≫= normalize_cell.

(** The body of the loop over the rows.  A row is the list of its cells;
    [None] stands for the [IndexError] of [row.iloc[0]] on a row without
    cells. *)
Definition add_row (pcm : OrderedDict.t) (row : list string)
  : option OrderedDict.t :=
  match row with
  | [] => None
  | cell0 :: cells =>
      let parent := Py.lower (Py.strip cell0) in
      if negb (Py.truthy parent) || is_missing parent then Some pcm
      else
        let children := dedup_children (raw_children_of cells) in
        match OrderedDict.get parent pcm with
        | Some kids =>
            Some (OrderedDict.set parent (foldl merge_step kids children) pcm)
        | None => Some (OrderedDict.set parent children pcm)
        end
  end.

Fixpoint add_rows (pcm : OrderedDict.t) (df : list (list string))
  : option OrderedDict.t :=
  match df with
  | [] => Some pcm
  | row :: df' => pcm' ← add_row pcm row; add_rows pcm' df'
  end.

Definition build_parent_child_map (df : list (list string))
  : option OrderedDict.t :=
  add_rows OrderedDict.empty df.

(** ** make_node *)

#[warnings="-register-all"] Inductive node : Type :=
  Node (name : string) (children : list node).

Definition node_name (n : node) : string :=
  match n with Node name _ => name end.

(** [pcm.get(name, [])] *)
Definition children_of (pcm : OrderedDict.t) (name : string) : list string :=
  default [] (OrderedDict.get name pcm).

(** [make_node] with a bound on the depth of the recursion: [fuel] is the
    number of nested calls that may be open at once, the one being made
    included, and [None] says that the bound was too small.  A call
    hands each child a copy of [visited] to which [name] was added. *)
Fixpoint make_node_fuel (fuel : nat) (name : string) (pcm : OrderedDict.t)
    (visited : gset string) : option node :=
  match fuel with
  | 0 => None
  | S fuel' =>
      if bool_decide (name ∈ visited) then Some (Node name [])
      else
        children ← mapM (fun ch => make_node_fuel fuel' ch pcm ({[name]} ∪ visited))
                        (children_of pcm name);
        Some (Node name children)
  end.

(** A call opens at most one frame for each key of the map and one more,
    so this bound is never too small ([make_node_fuel_enough] below);
    [make_node_eq] is the equation of the source.  The limit that the
    interpreter sets on the depth of calls is not part of the model: on
    a map whose chains are longer than that limit CPython raises
    [RecursionError] where this function returns a tree. *)
Definition make_node (name : string) (pcm : OrderedDict.t)
    (visited : gset string) : node :=
  default (Node name []) (make_node_fuel (S (length pcm)) name pcm visited).

(** ** build_tree *)

(** [set(ch for kids in pcm.values() for ch in kids)] *)
Definition all_children (pcm : OrderedDict.t) : gset string :=
  list_to_set (mjoin (OrderedDict.values pcm)).

(** The list [roots] of [build_tree], fallback included. *)
Definition roots (pcm : OrderedDict.t) : list string :=
  let roots := filter (fun p => p ∉ all_children pcm) (OrderedDict.keys pcm) in
  match roots with
  | [] => OrderedDict.keys pcm
  | _ => roots
  end.

(** What [build_tree] returns: a node, or a list of nodes. *)
Inductive tree : Type :=
  | Single (n : node)
  | Forest (ns : list node).

Definition build_tree (pcm : OrderedDict.t) : tree :=
  let forest := (fun r => make_node r pcm ∅) <$> roots pcm in
  match forest with
  | [n] => Single n
  | _ => Forest forest
  end.

(** ** clean_name and transform_names *)

Definition clean_name (name : string) : string :=
  if negb (Py.truthy name) then name
  else Py.capitalize (NUM_SUFFIX_RE_sub_empty name).

Fixpoint transform_names (n : node) : node :=
  match n with
  | Node name children => Node (clean_name name) (transform_names <$> children)
  end.

(** *** The nodes as objects of a store

    [transform_names] assigns to the key ["name"] of the dict it is given
    and returns that dict.  To tell this from building a new tree, the
    dicts are objects of a store here: an object has its name and its
    list of children, which holds the places of other objects.  The
    recursion of the source is bounded by [fuel], the number of nested
    calls that may be open at once; [None] says that the bound was too
    small or that a place is not in the store. *)

Definition loc : Type := nat.

Record obj : Type := Obj { obj_name : string; obj_children : list loc }.

Abbreviation store := (gmap loc obj).

(** [for child in children: body(child)] *)
Fixpoint for_each (body : loc → store → option store) (children : list loc)
    (σ : store) : option store :=
  match children with
  | [] => Some σ
  | child :: children' => σ' ← body child σ; for_each body children' σ'
  end.

Fixpoint transform_names_store (fuel : nat) (node : loc) (σ : store)
  : option (loc * store) :=
  match fuel with
  | 0 => None
  | S fuel' =>
      o ← σ !! node;
      let σ1 := <[node := Obj (clean_name (obj_name o)) (obj_children o)]> σ in
      σ2 ← for_each (λ child σ, snd <$> transform_names_store fuel' child σ)
                    (obj_children o) σ1;
      Some (node, σ2)
  end.

(** The part of [main] between reading the sheet and writing the file. *)
Definition pipeline (df : list (list string)) : option tree :=
  pcm ← build_parent_child_map df;
  Some match build_tree pcm with
       | Forest ts => Forest (transform_names <$> ts)
       | Single t => Single (transform_names t)
       end.

(** ** The notions of the specification *)

(** A token is a normalized string: trimmed, lower-case, not empty and
    not one of the two markers of a missing value. *)
Definition trimmed (t : string) : Prop := Py.strip t = t.
Definition lowercase (t : string) : Prop := Py.lower t = t.
Definition token (t : string) : Prop :=
  trimmed t ∧ lowercase t ∧ t ≠ "" ∧ t ≠ "nan" ∧ t ≠ "none".

(** What is left of a list when only the first occurrence of each of its
    elements is kept. *)
Fixpoint first_occurrences (l : list string) : list string :=
  match l with
  | [] => []
  | x :: l' => x :: filter (λ y, y ≠ x) (first_occurrences l')
  end.

(** What a row says: its parent token and the children of its other
    cells; nothing when the parent cell is empty or marks a missing
    value. *)
Definition row_entry (row : list string) : option (string * list string) :=
  match row with
  | [] => None
  | cell0 :: cells =>
      let parent := Py.lower (Py.strip cell0) in
      if bool_decide (parent = "" ∨ parent = "nan" ∨ parent = "none") then None
      else Some (parent, raw_children_of cells)
  end.

Definition entries (df : list (list string)) : list (string * list string) :=
  omap row_entry df.

(** The parent tokens of a table, row by row. *)
Definition parents (df : list (list string)) : list string :=
  (entries df).*1.

(** The children that the rows of [parent] bring, row by row. *)
Definition children_under (parent : string) (es : list (string * list string))
  : list string :=
  es ≫= (λ e, if decide (e.1 = parent) then e.2 else []).

Definition brought (parent : string) (df : list (list string)) : list string :=
  children_under parent (entries df).

(** The map that the entries [es], gone through in their order, leave:
    its keys are the parents in the order in which they first came, and a
    parent has the first occurrences of the children of its rows. *)
Definition holds (pcm : OrderedDict.t) (es : list (string * list string))
  : Prop :=
  OrderedDict.keys pcm = first_occurrences es.*1 ∧
  ∀ parent,
    OrderedDict.get parent pcm
    = if decide (parent ∈ es.*1)
      then Some (first_occurrences (children_under parent es))
      else None.

(** Paths of the map.  [linked pcm p] says that every token of [p] is a
    child, in [pcm], of the token before it. *)
Inductive linked (pcm : OrderedDict.t) : list string → Prop :=
  | linked_nil : linked pcm []
  | linked_one x : linked pcm [x]
  | linked_cons x y p :
      y ∈ children_of pcm x → linked pcm (y :: p) → linked pcm (x :: y :: p).

(** A path without a cycle, through tokens that satisfy [Q]: no token
    comes twice. *)
Definition path_over (Q : string → Prop) (pcm : OrderedDict.t)
    (p : list string) : Prop :=
  NoDup p ∧ Forall Q p ∧ linked pcm p.

(** The tokens of the map: its parents and their children. *)
Definition in_map (pcm : OrderedDict.t) (x : string) : Prop :=
  x ∈ OrderedDict.keys pcm ∨ x ∈ all_children pcm.

(** An acyclic path in the map; its length is the number of its
    tokens. *)
Definition acyclic_path (pcm : OrderedDict.t) (p : list string) : Prop :=
  path_over (in_map pcm) pcm p.

(** A token that is in no child list of the map. *)
Definition never_child (pcm : OrderedDict.t) (p : string) : Prop :=
  ∀ q kids, (q, kids) ∈ pcm → p ∉ kids.

(** The names at the top of what [build_tree] returns. *)
Definition root_names (t : tree) : list string :=
  match t with
  | Single n => [node_name n]
  | Forest ns => node_name <$> ns
  end.

(** The maps of the examples. *)
Definition two_cycle : OrderedDict.t := [("a", ["b"]); ("b", ["a"])].
Definition chain_abc : OrderedDict.t := [("a", ["b"]); ("b", ["c"])].

(** The table of the end-to-end example. *)
Definition two_rows : list (list string) :=
  [["root"; "child1"; "child2"]; ["child1"; "grandchild1"]].

(** A tree laid out in a store: every node with its place. *)
#[warnings="-register-all"] Inductive lnode : Type :=
  LNode (place : loc) (name : string) (children : list lnode).

Definition lnode_place (t : lnode) : loc :=
  match t with LNode place _ _ => place end.

(** The places of a laid out tree, the root first. *)
Fixpoint places (t : lnode) : list loc :=
  match t with
  | LNode place _ children => place :: mjoin (places <$> children)
  end.

(** The tree that is laid out. *)
Fixpoint erase (t : lnode) : node :=
  match t with
  | LNode _ name children => Node name (erase <$> children)
  end.

(** The number of nodes on the longest branch. *)
Fixpoint height (t : lnode) : nat :=
  match t with
  | LNode _ _ children => S (max_list (height <$> children))
  end.

(** The store holds the tree: at the place of every node there is the
    object with the name of the node and the places of its children. *)
#[warnings="-register-all"] Inductive stored (σ : store) : lnode → Prop :=
  stored_node place name children :
    σ !! place = Some (Obj name (lnode_place <$> children)) →
    Forall (stored σ) children →
    stored σ (LNode place name children).

(** The same layout with the names cleaned. *)
Fixpoint clean_layout (t : lnode) : lnode :=
  match t with
  | LNode place name children =>
      LNode place (clean_name name) (clean_layout <$> children)
  end.

(** A tree without its names, and the names of a tree, parents before
    children. *)
#[warnings="-register-all"] Inductive shape : Type :=
  Shape (children : list shape).

Fixpoint shape_of (n : node) : shape :=
  match n with
  | Node _ children => Shape (shape_of <$> children)
  end.

Fixpoint names_of (n : node) : list string :=
  match n with
  | Node name children => name :: mjoin (names_of <$> children)
  end.

(** A store with a tree of two nodes, and its layout. *)
Definition two_nodes : store :=
  <[0 := Obj "john2" [1]]> (<[1 := Obj "mary" []]> ∅).
Definition two_nodes_layout : lnode :=
  LNode 0 "john2" [LNode 1 "mary" []].
Definition two_nodes_cleaned : store :=
  <[0 := Obj "John" [1]]> (<[1 := Obj "Mary" []]> ∅).

(** ** Further notions *)

(** Every character of [s] satisfies [P]. *)
Fixpoint every_char (P : ascii → bool) (s : string) : bool :=
  match s with
  | "" => true
  | String c s' => P c && every_char P s'
  end.

(** [s] without its delimiters. *)
Fixpoint without_delims (s : string) : string :=
  match s with
  | "" => ""
  | String c s' =>
      if is_delim c then without_delims s' else String c (without_delims s')
  end.

(** The parts of a split, put one after the other. *)
Definition concat_parts (ps : list string) : string :=
  foldr String.append "" ps.

(** The names met on the way from the root of a tree down to one of its
    nodes. *)
#[warnings="-register-all"] Inductive branch : node → list string → Prop :=
  | branch_root name children : branch (Node name children) [name]
  | branch_child name children c p :
      c ∈ children → branch c p → branch (Node name children) (name :: p).

(** The number of nodes on the longest branch of a tree. *)
Fixpoint node_height (n : node) : nat :=
  match n with
  | Node _ children => S (max_list (node_height <$> children))
  end.

(** The trees of what [build_tree] returns. *)
Definition trees (t : tree) : list node :=
  match t with
  | Single n => [n]
  | Forest ns => ns
  end.

(** In the store, [b] is a child of [a]; a place is on a cycle when it is
    a descendant of itself. *)
Definition child_of (σ : store) (a b : loc) : Prop :=
  ∃ o, σ !! a = Some o ∧ b ∈ obj_children o.

Definition on_cycle (σ : store) (a : loc) : Prop := tc (child_of σ) a a.

(** [subtree_at n q m]: going down from the root of [n] through nodes of
    names [q] one comes to the subtree [m]. *)
#[warnings="-register-all"] Inductive subtree_at : node → list string → node → Prop :=
  | subtree_here n : subtree_at n [] n
  | subtree_below name children c q m :
      c ∈ children → subtree_at c q m →
      subtree_at (Node name children) (name :: q) m.

(** ** The string functions on all of Unicode

    The definitions above read a [str] as ASCII text.  Here a [str] is
    the list of its code points, whatever they are, and the methods of
    [str] whose result depends on the tables of the Unicode database
    are parameters: [isspace] says which characters [str.strip] removes,
    [lower] is [str.lower], [isdigit] is the class [\d] of a [str]
    pattern and [capitalize] is [str.capitalize].  [normalize_cell] and
    [clean_name] are the functions of the script over these. *)

Module U.

Definition str : Type := list N.

(** The code points of a string written in ASCII. *)
Definition of_ascii (s : string) : str :=
  N_of_ascii <$> String.list_ascii_of_string s.

Definition comma : N := 44%N.
Definition semicolon : N := 59%N.
Definition bar : N := 124%N.
Definition newline : N := 10%N.

Section Methods.
Context (isspace : N → bool) (lower : str → str).

(** [s.lstrip()] *)
Fixpoint lstrip (s : str) : str :=
  match s with
  | [] => []
  | c :: s' => if isspace c then lstrip s' else s
  end.

(** [s.rstrip()] *)
Fixpoint rstrip (s : str) : str :=
  match s with
  | [] => []
  | c :: s' =>
      match rstrip s' with
      | [] => if isspace c then [] else [c]
      | r => c :: r
      end
  end.

(** [s.strip()] *)
Definition strip (s : str) : str := lstrip (rstrip s).

(** The character class [[,;|]] of [SPLIT_RE]. *)
Definition is_delim (c : N) : bool :=
  bool_decide (c = comma) || bool_decide (c = semicolon)
  || bool_decide (c = bar).

(** [',' in s or ';' in s or '|' in s] *)
Definition has_delim (s : str) : bool :=
  bool_decide (comma ∈ s) || bool_decide (semicolon ∈ s)
  || bool_decide (bar ∈ s).

(** [SPLIT_RE.split(s)], as [split_scan] above. *)
Fixpoint split_scan (in_run : bool) (s : str) : list str :=
  match s with
  | [] => [[]]
  | c :: s' =>
      if is_delim c then
        if in_run then split_scan true s' else [] :: split_scan true s'
      else
        match split_scan false s' with
        | p :: ps => (c :: p) :: ps
        | [] => [[c]]
        end
  end.

Definition SPLIT_RE_split (s : str) : list str := split_scan false s.

(** [s in ["nan", "none"]] *)
Definition is_missing (s : str) : bool :=
  bool_decide (s ∈ [of_ascii "nan"; of_ascii "none"]).

Definition normalize_cell (cell : str) : list str :=
  let s := lower (strip cell) in
  if bool_decide (s = []) || is_missing s then []
  else if has_delim s then
    (λ p, lower (strip p))
      <$> filter (λ p, strip p ≠ []) (SPLIT_RE_split s)
  else [s].

(** The token of the specification. *)
Definition trimmed (t : str) : Prop := strip t = t.
Definition lowercase (t : str) : Prop := lower t = t.
Definition token (t : str) : Prop :=
  trimmed t ∧ lowercase t ∧ t ≠ [] ∧
  t ≠ of_ascii "nan" ∧ t ≠ of_ascii "none".

End Methods.

Section Names.
Context (isdigit : N → bool) (capitalize : str → str).

(** Where the greedy [\d+] stops. *)
Fixpoint skip_digits (s : str) : str :=
  match s with
  | [] => []
  | c :: s' => if isdigit c then skip_digits s' else s
  end.

(** Where [$] matches: at the end of the string, and before a line feed
    that ends the string. *)
Definition at_dollar (rest : str) : bool :=
  bool_decide (rest = []) || bool_decide (rest = [newline]).

(** [NUM_SUFFIX_RE.sub("", s)], as [NUM_SUFFIX_RE_sub_empty] above. *)
Fixpoint NUM_SUFFIX_RE_sub_empty (s : str) : str :=
  match s with
  | [] => []
  | c :: s' =>
      if isdigit c && at_dollar (skip_digits s') then skip_digits s'
      else c :: NUM_SUFFIX_RE_sub_empty s'
  end.

Definition clean_name (name : str) : str :=
  if bool_decide (name = []) then name
  else capitalize (NUM_SUFFIX_RE_sub_empty name).

(** The specification's words: [s] without the run of digits that ends
    it. *)
Fixpoint strip_trailing_digits (s : str) : str :=
  match s with
  | [] => []
  | c :: s' =>
      match strip_trailing_digits s' with
      | [] => if isdigit c then [] else [c]
      | r => c :: r
      end
  end.

(** The last character of [s] is a line feed. *)
Definition ends_with_newline (s : str) : bool :=
  bool_decide (last s = Some newline).

End Names.

End U.

(** The tables cut down to ASCII: the blanks, letters and digits of ASCII
    and no other.  On ASCII text they are the tables of CPython. *)
Module Ascii7.

Definition isspace (c : N) : bool :=
  ((9 <=? c) && (c <=? 13) || (28 <=? c) && (c <=? 32))%N.

Definition isdigit (c : N) : bool := ((48 <=? c) && (c <=? 57))%N.

Definition lower_char (c : N) : N :=
  if ((65 <=? c) && (c <=? 90))%N then (c + 32)%N else c.

Definition upper_char (c : N) : N :=
  if ((97 <=? c) && (c <=? 122))%N then (c - 32)%N else c.

Definition lower (s : U.str) : U.str := lower_char <$> s.

Definition capitalize (s : U.str) : U.str :=
  match s with
  | [] => []
  | c :: s' => upper_char c :: lower s'
  end.

End Ascii7.

(** * Properties *)

(** ** Characters and strings *)

Module PyFacts.
Import Py.

Ltac all_chars c :=
  destruct c as [[] [] [] [] [] [] [] []]; vm_compute; try reflexivity.

Lemma lower_char_idemp c : lower_char (lower_char c) = lower_char c.
Proof. all_chars c. Qed.

Lemma isspace_lower_char c : isspace (lower_char c) = isspace c.
Proof. all_chars c. Qed.

Lemma lower_idemp s : lower (lower s) = lower s.
Proof. induction s as [|c s IH]; simpl; [done|]. by rewrite lower_char_idemp, IH. Qed.

Lemma truthy_lower s : truthy (lower s) = truthy s.
Proof. by destruct s. Qed.

Lemma truthy_true s : truthy s = true ↔ s ≠ "".
Proof. destruct s; simpl; split; congruence. Qed.

Lemma lstrip_lower s : lstrip (lower s) = lower (lstrip s).
Proof.
  induction s as [|c s IH]; simpl; [done|].
  rewrite isspace_lower_char. by destruct (isspace c).
Qed.

Lemma rstrip_lower s : rstrip (lower s) = lower (rstrip s).
Proof.
  induction s as [|c s IH]; simpl; [done|].
  rewrite IH, isspace_lower_char.
  destruct (rstrip s); simpl; [by destruct (isspace c)|done].
Qed.

Lemma strip_lower s : strip (lower s) = lower (strip s).
Proof. unfold strip. by rewrite rstrip_lower, lstrip_lower. Qed.

Lemma rstrip_idemp s : rstrip (rstrip s) = rstrip s.
Proof.
  induction s as [|c s IH]; simpl; [done|].
  destruct (rstrip s) as [|d r] eqn:E.
  - destruct (isspace c) eqn:Ec; simpl; [done|]. by rewrite Ec.
  - change (rstrip (String c (String d r))) with
      (match rstrip (String d r) with
       | "" => if isspace c then "" else String c ""
       | r' => String c r'
       end).
    by rewrite IH.
Qed.

Lemma lstrip_idemp s : lstrip (lstrip s) = lstrip s.
Proof.
  induction s as [|c s IH]; simpl; [done|].
  destruct (isspace c) eqn:Ec; [done|]. simpl. by rewrite Ec.
Qed.

Lemma rstrip_lstrip s : rstrip (lstrip s) = lstrip (rstrip s).
Proof.
  induction s as [|c s IH]; simpl; [done|].
  destruct (isspace c) eqn:Ec.
  - rewrite IH. destruct (rstrip s); simpl; [done|]. by rewrite Ec.
  - simpl. destruct (rstrip s); simpl; by rewrite Ec.
Qed.

Lemma strip_idemp s : strip (strip s) = strip s.
Proof.
  unfold strip. by rewrite rstrip_lstrip, rstrip_idemp, lstrip_idemp.
Qed.

End PyFacts.

(** ** normalize_cell *)

Section NormalizeCell.
Import Py PyFacts.

Lemma normalized_part p :
  truthy (strip p) = true →
  trimmed (lower (strip p)) ∧ lowercase (lower (strip p)) ∧ lower (strip p) ≠ "".
Proof.
  intros Hp. unfold trimmed, lowercase. split_and!.
  - by rewrite strip_lower, strip_idemp.
  - apply lower_idemp.
  - apply truthy_true. by rewrite truthy_lower.
Qed.

Lemma is_missing_false s : is_missing s = false ↔ s ≠ "nan" ∧ s ≠ "none".
Proof.
  unfold is_missing. rewrite bool_decide_eq_false, !elem_of_cons, elem_of_nil.
  tauto.
Qed.

(** What every branch of [normalize_cell] returns is trimmed, lower-case
    and not empty. *)
Lemma normalize_cell_normalized cell t :
  t ∈ normalize_cell cell → trimmed t ∧ lowercase t ∧ t ≠ "".
Proof.
  unfold normalize_cell. intros Ht.
  destruct (negb (truthy (lower (strip cell))) || is_missing (lower (strip cell)))
    eqn:Hguard; [by apply not_elem_of_nil in Ht|].
  apply orb_false_iff in Hguard as [Hne%negb_false_iff _].
  destruct (has_delim (lower (strip cell))).
  - apply list_elem_of_fmap in Ht as (p & -> & Hp%list_elem_of_filter).
    destruct Hp as [Hp _]. by apply normalized_part.
  - apply list_elem_of_singleton in Ht as ->.
    rewrite truthy_lower in Hne. by apply normalized_part.
Qed.

End NormalizeCell.

(** ** The dictionary *)

Module OrderedDictFacts.
Import OrderedDict.

Lemma get_set_eq k v d : get k (set k v d) = Some v.
Proof.
  induction d as [|[k' v'] d IH]; simpl; repeat case_decide; simpl;
    repeat case_decide; congruence.
Qed.

Lemma get_set_ne k k' v d : k ≠ k' → get k' (set k v d) = get k' d.
Proof.
  intros Hne. induction d as [|[k'' v'] d IH]; simpl; repeat case_decide;
    simpl; repeat case_decide; congruence.
Qed.

Lemma get_is_Some k d : is_Some (get k d) ↔ k ∈ keys d.
Proof.
  unfold keys. induction d as [|[k' v'] d IH]; simpl.
  - rewrite elem_of_nil. split; [by intros [? ?]|done].
  - rewrite elem_of_cons. case_decide; [naive_solver|]. rewrite IH. naive_solver.
Qed.

Lemma get_None k d : get k d = None ↔ k ∉ keys d.
Proof. rewrite <-get_is_Some, eq_None_not_Some. done. Qed.

Lemma get_Some_elem k v d : get k d = Some v → (k, v) ∈ d.
Proof.
  induction d as [|[k' v'] d IH]; simpl; [done|].
  case_decide; [intros [= ->]; subst; left|right; auto].
Qed.

Lemma elem_get k v d : NoDup (keys d) → (k, v) ∈ d → get k d = Some v.
Proof.
  unfold keys. induction d as [|[k' v'] d IH]; simpl.
  - by intros _ ?%elem_of_nil.
  - intros [Hk' Hd]%NoDup_cons [[= -> ->]|Hin]%elem_of_cons.
    + by rewrite decide_True.
    + rewrite decide_False; [auto|]. intros ->. apply Hk'.
      apply list_elem_of_fmap. by exists (k', v).
Qed.

(** Assigning to a key that is present changes no key and no place. *)
Lemma keys_set_present k v d : k ∈ keys d → keys (set k v d) = keys d.
Proof.
  unfold keys. induction d as [|[k' v'] d IH]; simpl.
  - by intros ?%elem_of_nil.
  - intros Hin. case_decide; simpl; [congruence|].
    f_equal. apply IH. apply elem_of_cons in Hin as [?|?]; done.
Qed.

(** Assigning to a new key puts it last. *)
Lemma keys_set_absent k v d : k ∉ keys d → keys (set k v d) = keys d ++ [k].
Proof.
  unfold keys. induction d as [|[k' v'] d IH]; simpl; [done|].
  intros Hin%not_elem_of_cons. case_decide; simpl; [naive_solver|].
  f_equal. apply IH. naive_solver.
Qed.

End OrderedDictFacts.

(** ** Keeping first occurrences *)

Section FirstOccurrences.

Lemma elem_of_first_occurrences x l : x ∈ first_occurrences l ↔ x ∈ l.
Proof.
  induction l as [|y l IH]; simpl; [done|].
  rewrite !elem_of_cons, list_elem_of_filter, IH.
  destruct (decide (x = y)); naive_solver.
Qed.

Lemma NoDup_first_occurrences l : NoDup (first_occurrences l).
Proof.
  induction l as [|y l IH]; simpl; [constructor|].
  apply NoDup_cons. split; [|by apply NoDup_filter].
  rewrite list_elem_of_filter. naive_solver.
Qed.

Lemma list_filter_True (P : string → Prop) `{!∀ x, Decision (P x)}
    (l : list string) :
  (∀ x, x ∈ l → P x) → filter P l = l.
Proof.
  induction l as [|y l IH]; [done|]. intros HP.
  rewrite filter_cons_True by (apply HP; left).
  rewrite IH; [done|]. intros x Hx. apply HP. by right.
Qed.

Lemma filter_not_elem (l : list string) x :
  x ∉ l → filter (λ y, y ≠ x) l = l.
Proof. intros Hx. apply list_filter_True. by intros y Hy ->. Qed.

Lemma first_occurrences_NoDup l : NoDup l → first_occurrences l = l.
Proof.
  induction l as [|y l IH]; simpl; [done|].
  intros [? ?]%NoDup_cons. by rewrite IH, filter_not_elem.
Qed.

Lemma first_occurrences_idemp l :
  first_occurrences (first_occurrences l) = first_occurrences l.
Proof. apply first_occurrences_NoDup, NoDup_first_occurrences. Qed.

(** The merging loop appends, in their order, the first occurrences of
    what is not there yet. *)
Lemma foldl_merge_step kids l :
  foldl merge_step kids l
  = kids ++ filter (λ ch, ch ∉ kids) (first_occurrences l).
Proof.
  revert kids. induction l as [|x l IH]; intros kids; simpl.
  - by rewrite app_nil_r.
  - rewrite IH. unfold merge_step. case_bool_decide as Hx.
    + rewrite filter_cons_False by naive_solver.
      f_equal. rewrite list_filter_filter.
      apply list_filter_iff. naive_solver.
    + rewrite filter_cons_True by done.
      rewrite <-app_assoc. simpl. do 2 f_equal.
      rewrite list_filter_filter.
      apply list_filter_iff. intros y.
      rewrite elem_of_app, list_elem_of_singleton. naive_solver.
Qed.

Lemma first_occurrences_app l m :
  first_occurrences (l ++ m) = foldl merge_step (first_occurrences l) m.
Proof.
  rewrite foldl_merge_step.
  induction l as [|x l IH]; simpl.
  - by rewrite list_filter_True by (intros; apply not_elem_of_nil).
  - rewrite IH, filter_app, list_filter_filter. do 2 f_equal.
    apply list_filter_iff. intros y.
    rewrite elem_of_cons, list_elem_of_filter. tauto.
Qed.

End FirstOccurrences.

(** ** build_parent_child_map *)

Section BuildParentChildMap.
Import OrderedDict OrderedDictFacts.

(** The loop with the set [seen] keeps the first occurrence of every
    child that is not the empty string. *)
Lemma foldl_dedup_step seen kids raw :
  seen = list_to_set kids →
  (foldl dedup_step (seen, kids) raw).2
  = foldl merge_step kids (filter (λ ch, Py.truthy ch = true) raw).
Proof.
  revert seen kids. induction raw as [|ch raw IH]; intros seen kids ->; [done|].
  simpl. unfold dedup_step at 2. simpl.
  destruct (Py.truthy ch) eqn:Hch; simpl.
  - rewrite filter_cons_True by done. simpl. unfold merge_step at 2.
    case_bool_decide as Hin; case_bool_decide as Hin'.
    + exfalso. apply Hin. rewrite elem_of_list_to_set. done.
    + apply IH. rewrite list_to_set_app_L. simpl. set_solver.
    + by apply IH.
    + exfalso. apply Hin'. by apply elem_of_list_to_set in Hin.
  - rewrite filter_cons_False by congruence. by apply IH.
Qed.

Lemma dedup_children_spec raw :
  dedup_children raw
  = first_occurrences (filter (λ ch, Py.truthy ch = true) raw).
Proof.
  unfold dedup_children. rewrite (foldl_dedup_step ∅ []) by done.
  by rewrite foldl_merge_step, list_filter_True by (intros; apply not_elem_of_nil).
Qed.

(** Normalized cells bring no empty child, so the test [if ch] of the
    loop lets every child through. *)
Lemma raw_children_truthy cells :
  filter (λ ch, Py.truthy ch = true) (raw_children_of cells)
  = raw_children_of cells.
Proof.
  apply list_filter_True. intros ch (cell & Hch & _)%list_elem_of_bind.
  apply PyFacts.truthy_true. by apply normalize_cell_normalized in Hch as (_ & _ & ?).
Qed.

Lemma dedup_raw_children cells :
  dedup_children (raw_children_of cells)
  = first_occurrences (raw_children_of cells).
Proof. by rewrite dedup_children_spec, raw_children_truthy. Qed.

Lemma parent_guard parent :
  negb (Py.truthy parent) || is_missing parent
  = bool_decide (parent = "" ∨ parent = "nan" ∨ parent = "none").
Proof.
  destruct (is_missing parent) eqn:Hm.
  - rewrite orb_true_r. symmetry. apply bool_decide_eq_true.
    unfold is_missing in Hm. apply bool_decide_eq_true in Hm.
    rewrite !elem_of_cons, elem_of_nil in Hm. tauto.
  - apply is_missing_false in Hm as [? ?]. rewrite orb_false_r.
    destruct parent; simpl; [done|].
    symmetry. apply bool_decide_eq_false. intros [?|[?|?]]; done.
Qed.

(** The body of the loop, read through [row_entry]. *)
Lemma add_row_entry pcm row pcm' :
  add_row pcm row = Some pcm' →
  pcm' = match row_entry row with
         | None => pcm
         | Some (parent, raw) =>
             set parent
               (foldl merge_step (default [] (get parent pcm))
                  (first_occurrences raw))
               pcm
         end.
Proof.
  destruct row as [|cell0 cells]; [done|]. unfold add_row, row_entry.
  rewrite parent_guard. case_bool_decide; [congruence|].
  rewrite dedup_raw_children.
  destruct (get _ pcm) as [kids|]; simpl; intros [= <-]; [done|].
  change (foldl merge_step [] ?l) with (foldl merge_step (first_occurrences []) l).
  rewrite <-first_occurrences_app. simpl.
  by rewrite first_occurrences_idemp.
Qed.

Lemma add_row_is_Some pcm row : is_Some (add_row pcm row) ↔ row ≠ [].
Proof.
  destruct row as [|cell0 cells]; simpl.
  - split; [by intros [? ?]|done].
  - split; [done|intros _]. destruct (_ || _); [by eexists|].
    destruct (get _ pcm); by eexists.
Qed.

Lemma children_under_app parent es es' :
  children_under parent (es ++ es')
  = children_under parent es ++ children_under parent es'.
Proof. apply bind_app. Qed.

Lemma children_under_absent parent es :
  parent ∉ es.*1 → children_under parent es = [].
Proof.
  unfold children_under. induction es as [|[p raw] es IH]; [done|].
  rewrite fmap_cons, not_elem_of_cons, bind_cons. simpl. intros [? ?].
  rewrite decide_False by done. by rewrite IH.
Qed.

Lemma foldl_merge_first_occurrences kids raw :
  foldl merge_step kids (first_occurrences raw) = foldl merge_step kids raw.
Proof. by rewrite !foldl_merge_step, first_occurrences_idemp. Qed.

Lemma holds_empty : holds empty [].
Proof. by split. Qed.

Lemma holds_entry pcm es parent raw :
  holds pcm es →
  holds (set parent
           (foldl merge_step (default [] (get parent pcm))
              (first_occurrences raw)) pcm)
        (es ++ [(parent, raw)]).
Proof.
  intros [Hkeys Hget]. split.
  - rewrite fmap_app, first_occurrences_app. simpl. unfold merge_step.
    rewrite <-Hkeys. case_bool_decide as Hin.
    + by apply keys_set_present.
    + by apply keys_set_absent.
  - intros q. rewrite fmap_app, children_under_app. simpl.
    destruct (decide (parent = q)) as [->|Hne]; simpl.
    + rewrite get_set_eq, decide_True by (rewrite elem_of_app; right; left).
      f_equal. rewrite app_nil_r, first_occurrences_app.
      rewrite foldl_merge_first_occurrences, Hget.
      case_decide as Hin; [done|].
      by rewrite (children_under_absent q es Hin).
    + rewrite get_set_ne, Hget, !app_nil_r by done.
      apply decide_ext. rewrite elem_of_app, list_elem_of_singleton.
      naive_solver.
Qed.

Lemma holds_add_row pcm es row pcm' :
  holds pcm es → add_row pcm row = Some pcm' →
  holds pcm' (es ++ option_list (row_entry row)).
Proof.
  intros Hh ->%add_row_entry.
  destruct (row_entry row) as [[parent raw]|]; simpl.
  - by apply holds_entry.
  - by rewrite app_nil_r.
Qed.

Lemma holds_add_rows df : ∀ pcm es pcm',
  holds pcm es → add_rows pcm df = Some pcm' →
  holds pcm' (es ++ entries df).
Proof.
  induction df as [|row df IH]; intros pcm es pcm' Hh; simpl.
  - intros [= <-]. by rewrite app_nil_r.
  - destruct (add_row pcm row) as [pcm1|] eqn:Hrow; [|done]. simpl.
    intros Hrest. unfold entries. simpl.
    pose proof (holds_add_row _ _ _ _ Hh Hrow) as Hh1.
    specialize (IH _ _ _ Hh1 Hrest). unfold entries in IH.
    rewrite <-app_assoc in IH.
    by destruct (row_entry row).
Qed.

Lemma build_parent_child_map_holds df pcm :
  build_parent_child_map df = Some pcm → holds pcm (entries df).
Proof. apply (holds_add_rows df empty [] pcm holds_empty). Qed.

(** The function fails on no table whose rows all have a cell. *)
Lemma add_rows_is_Some df : ∀ pcm,
  is_Some (add_rows pcm df) ↔ Forall (λ row, row ≠ []) df.
Proof.
  induction df as [|row df IH]; intros pcm; simpl.
  - split; [constructor|by eexists].
  - rewrite Forall_cons, <-(add_row_is_Some pcm).
    destruct (add_row pcm row) as [pcm1|]; simpl.
    + rewrite IH. split; [by split|by intros []].
    + split; [by intros [? ?]|by intros [[? ?] _]].
Qed.

(** X8: the parents of the map are those of the table, in the order in which
    they first come. *)
Lemma build_parent_child_map_keys df pcm :
  build_parent_child_map df = Some pcm →
  keys pcm = first_occurrences (parents df) ∧
  ∀ parent, is_Some (get parent pcm) ↔ parent ∈ parents df.
Proof.
  intros [Hkeys Hget]%build_parent_child_map_holds. split; [done|].
  intros parent. rewrite Hget. unfold parents.
  case_decide; split; try done; by intros [? ?].
Qed.

(** C2: in the map built from any table a parent's children have no
    duplicate and are the first occurrences, in their order, of the
    children that the parent's rows bring; a row whose parent has an
    entry appends to it, in the row's order, its children that are not
    there yet; the rows [a,b], [a,c], [a,b] give [a -> [b, c]]; and the
    map is built for every table whose rows all have a first cell. *)
Theorem build_parent_child_map_children :
  (∀ df pcm parent kids,
     build_parent_child_map df = Some pcm →
     get parent pcm = Some kids →
     NoDup kids ∧ kids = first_occurrences (brought parent df)) ∧
  (∀ pcm row parent raw kids,
     row_entry row = Some (parent, raw) →
     get parent pcm = Some kids →
     add_row pcm row
     = Some (set parent
               (kids ++ filter (λ ch, ch ∉ kids) (first_occurrences raw))
               pcm)) ∧
  build_parent_child_map [["a"; "b"]; ["a"; "c"]; ["a"; "b"]]
  = Some [("a", ["b"; "c"])] ∧
  (∀ df, Forall (λ row, row ≠ []) df → is_Some (build_parent_child_map df)).
Proof.
  split_and!; [| | |intros df; apply add_rows_is_Some].
  - intros df pcm parent kids [_ Hget]%build_parent_child_map_holds Hkids.
    rewrite Hget in Hkids. case_decide; [|done].
    injection Hkids as <-. split; [apply NoDup_first_occurrences|done].
  - intros pcm row parent raw kids Hrow Hkids.
    destruct (add_row pcm row) as [pcm'|] eqn:Hadd.
    + apply add_row_entry in Hadd. rewrite Hrow, Hkids in Hadd. simpl in Hadd.
      by rewrite foldl_merge_first_occurrences, foldl_merge_step in Hadd; subst.
    + exfalso. apply eq_None_not_Some in Hadd. apply Hadd, add_row_is_Some.
      by intros ->.
  - by vm_compute.
Qed.

Lemma build_parent_child_map_children_witness :
  (NoDup ["b"; "c"] ∧
   ["b"; "c"]
   = first_occurrences (brought "a" [["a"; "b"]; ["a"; "c"]; ["a"; "b"]])) ∧
  add_row [("a", ["b"])] ["a"; "c"; "b"]
  = Some (set "a"
            (["b"] ++ filter (λ ch, ch ∉ ["b"]) (first_occurrences ["c"; "b"]))
            [("a", ["b"])]).
Proof.
  destruct build_parent_child_map_children as (Hbuild & Hmerge & _ & _). split.
  - apply (Hbuild [["a"; "b"]; ["a"; "c"]; ["a"; "b"]] [("a", ["b"; "c"])]);
      by vm_compute.
  - apply (Hmerge [("a", ["b"])] ["a"; "c"; "b"] "a" ["c"; "b"] ["b"]);
      by vm_compute.
Defined.

End BuildParentChildMap.

(** ** make_node *)

Section MakeNode.
Import OrderedDict OrderedDictFacts.

Lemma children_of_key pcm name ch :
  ch ∈ children_of pcm name → name ∈ keys pcm.
Proof.
  unfold children_of. intros Hch. apply get_is_Some.
  destruct (get name pcm); [by eexists|by apply elem_of_nil in Hch].
Qed.

Lemma linked_snoc pcm p y :
  linked pcm p →
  (∀ x, last p = Some x → y ∈ children_of pcm x) →
  linked pcm (p ++ [y]).
Proof.
  induction 1 as [|x|x z p Hz Hp IH]; intros Hy; simpl.
  - constructor.
  - constructor; [by apply Hy|constructor].
  - constructor; [done|]. apply IH. intros w Hw. apply Hy. done.
Qed.

Lemma path_over_snoc (Q : string → Prop) pcm p y :
  path_over Q pcm p → y ∉ p → Q y →
  (∀ x, last p = Some x → y ∈ children_of pcm x) →
  path_over Q pcm (p ++ [y]).
Proof.
  intros (Hnd & HQ & Hl) Hy HQy Hlast. split_and!.
  - apply NoDup_app. split_and!; [done| |apply NoDup_singleton].
    intros x Hx ->%list_elem_of_singleton. done.
  - apply Forall_app. split; [done|]. by apply Forall_singleton.
  - by apply linked_snoc.
Qed.

(** More fuel changes no result. *)
Lemma make_node_fuel_mono pcm fuel : ∀ fuel' name visited n,
  make_node_fuel fuel name pcm visited = Some n → fuel ≤ fuel' →
  make_node_fuel fuel' name pcm visited = Some n.
Proof.
  induction fuel as [|fuel IH]; intros fuel' name visited n; [done|].
  intros Hn Hle. destruct fuel' as [|fuel']; [lia|].
  simpl in *. case_bool_decide; [done|].
  destruct (mapM _ _) as [children|] eqn:Hch in Hn; [|done].
  simpl in Hn. injection Hn as <-.
  apply mapM_Some in Hch.
  rewrite (proj2 (mapM_Some _ _ children)); [done|].
  eapply Forall2_impl; [exact Hch|].
  intros ch c Hc. simpl in Hc. eapply IH; [exact Hc|lia].
Qed.

Lemma path_over_nil (Q : string → Prop) pcm : path_over Q pcm [].
Proof. split_and!; constructor. Qed.

Section Depth.
Context (Q : string → Prop) (pcm : OrderedDict.t) (L : nat).
Hypothesis keys_Q : ∀ x, x ∈ keys pcm → Q x.
Hypothesis paths_L : ∀ p, path_over Q pcm p → length p ≤ L.

(** A call returns when its fuel, with the length of the path that led
    to it, goes beyond every acyclic path through tokens of [Q]. *)
Lemma make_node_fuel_path : ∀ fuel pre name visited,
  path_over Q pcm pre →
  (∀ x, x ∈ pre → x ∈ visited) →
  (∀ x, last pre = Some x → name ∈ children_of pcm x) →
  S L ≤ length pre + fuel →
  is_Some (make_node_fuel fuel name pcm visited).
Proof.
  induction fuel as [|fuel IH]; intros pre name visited Hpre Hvis Hlast Hlen.
  - specialize (paths_L pre Hpre). lia.
  - simpl. case_bool_decide as Hin; [by eexists|].
    assert (is_Some (mapM
      (λ ch, make_node_fuel fuel ch pcm ({[name]} ∪ visited))
      (children_of pcm name))) as [children ->]; [|by eexists].
    apply mapM_is_Some, Forall_forall. intros ch Hch. simpl.
    apply (IH (pre ++ [name])).
    + apply path_over_snoc; [done| |by eapply keys_Q, children_of_key|done].
      intros Hn. by apply Hin, Hvis.
    + intros x [Hx| ->%list_elem_of_singleton]%elem_of_app; [|set_solver].
      apply elem_of_union. right. by apply Hvis.
    + intros x. rewrite last_snoc. by intros [= <-].
    + rewrite length_app. simpl. lia.
Qed.

Lemma make_node_fuel_bound fuel name visited :
  S L ≤ fuel → is_Some (make_node_fuel fuel name pcm visited).
Proof.
  intros Hfuel. apply (make_node_fuel_path fuel []);
    [apply path_over_nil|by intros x ?%elem_of_nil|done|simpl; lia].
Qed.

End Depth.

(** A path through parents that has no cycle is no longer than the map. *)
Lemma key_path_length pcm p :
  path_over (λ x, x ∈ keys pcm) pcm p → length p ≤ length pcm.
Proof.
  intros (Hnd & Hk & _). unfold keys in Hk.
  rewrite <-(length_fmap fst pcm).
  apply submseteq_length, NoDup_submseteq; [done|].
  by apply Forall_forall.
Qed.

Lemma make_node_fuel_enough pcm fuel name visited :
  S (length pcm) ≤ fuel →
  make_node_fuel fuel name pcm visited = Some (make_node name pcm visited).
Proof.
  intros Hfuel. unfold make_node.
  destruct (make_node_fuel_bound (λ x, x ∈ keys pcm) pcm (length pcm)
              (λ _ Hx, Hx) (key_path_length pcm)
              (S (length pcm)) name visited) as [n Hn]; [done|].
  rewrite Hn. simpl. by eapply make_node_fuel_mono.
Qed.

Lemma make_node_fuel_S fuel name pcm visited :
  make_node_fuel (S fuel) name pcm visited
  = if bool_decide (name ∈ visited) then Some (Node name [])
    else
      children ← mapM (λ ch, make_node_fuel fuel ch pcm ({[name]} ∪ visited))
                      (children_of pcm name);
      Some (Node name children).
Proof. done. Qed.

(** The equation of the source. *)
Lemma make_node_eq name pcm visited :
  make_node name pcm visited
  = if bool_decide (name ∈ visited) then Node name []
    else Node name
           ((λ ch, make_node ch pcm ({[name]} ∪ visited))
              <$> children_of pcm name).
Proof.
  pose proof (make_node_fuel_enough pcm (S (S (length pcm))) name visited) as H.
  rewrite make_node_fuel_S in H. case_bool_decide.
  - specialize (H ltac:(lia)). congruence.
  - rewrite (proj2 (mapM_Some _ _
      ((λ ch, make_node ch pcm ({[name]} ∪ visited)) <$> children_of pcm name)))
      in H.
    + simpl in H. specialize (H ltac:(lia)). congruence.
    + apply Forall2_fmap_r, Forall_Forall2_diag, Forall_forall.
      intros ch _. by apply make_node_fuel_enough.
Qed.

Lemma make_node_name name pcm visited :
  node_name (make_node name pcm visited) = name.
Proof. rewrite make_node_eq. by case_bool_decide. Qed.

(** C4: in the map [{a: [b], b: [a]}] the node made for [a] with nothing
    visited is [a] with the child [b], whose only child is [a] again,
    without children. *)
Theorem make_node_two_cycle :
  make_node "a" two_cycle ∅ = Node "a" [Node "b" [Node "a" []]].
Proof. by vm_compute. Qed.

Lemma two_cycle_paths p : acyclic_path two_cycle p → length p ≤ 2.
Proof.
  intros (Hnd & Hin & _).
  change 2 with (length ["a"; "b"]).
  apply submseteq_length, NoDup_submseteq; [done|].
  intros x Hx. rewrite Forall_forall in Hin.
  destruct (Hin x Hx) as [Hk|Hc]; [done|].
  unfold all_children in Hc. apply elem_of_list_to_set in Hc. simpl in Hc.
  rewrite !elem_of_cons in *. tauto.
Qed.

(** In that map the third nested call is needed: the depth is the two
    tokens of the longest acyclic path, and one. *)
Lemma make_node_two_cycle_depth :
  make_node_fuel 2 "a" two_cycle ∅ = None ∧
  make_node_fuel 3 "a" two_cycle ∅ = Some (Node "a" [Node "b" [Node "a" []]]).
Proof. by vm_compute. Qed.

(** An acyclic path is no longer than the lists of the map taken
    together, so there is a longest one. *)
Lemma acyclic_path_length pcm p :
  acyclic_path pcm p → length p ≤ length (keys pcm ++ mjoin (values pcm)).
Proof.
  intros (Hnd & Hin & _).
  apply submseteq_length, NoDup_submseteq; [done|].
  intros x Hx. rewrite Forall_forall in Hin.
  apply elem_of_app. destruct (Hin x Hx) as [?|Hc]; [by left|right].
  by apply elem_of_list_to_set in Hc.
Qed.

(** C8: [make_node] returns for every map, name and visited set: no
    more nested calls are open at once than the map has parents, and
    one; and no more than the longest acyclic path of the map has
    tokens, and one.  Such a longest path there is, the acyclic paths of
    a map being bounded in length. *)
Theorem make_node_terminates pcm name visited :
  (∀ fuel, S (length pcm) ≤ fuel →
     make_node_fuel fuel name pcm visited = Some (make_node name pcm visited)) ∧
  (∀ L, (∀ p, acyclic_path pcm p → length p ≤ L) →
     ∀ fuel, S L ≤ fuel →
       make_node_fuel fuel name pcm visited
       = Some (make_node name pcm visited)) ∧
  (∃ L, ∀ p, acyclic_path pcm p → length p ≤ L).
Proof.
  split_and!; [intros fuel; apply make_node_fuel_enough| |].
  2:{ eexists. apply acyclic_path_length. }
  intros L HL fuel Hfuel.
  destruct (make_node_fuel_bound (in_map pcm) pcm L (λ _ Hx, or_introl Hx) HL
              fuel name visited) as [n Hn]; [done|].
  rewrite Hn. f_equal.
  pose proof (make_node_fuel_mono pcm fuel (fuel + S (length pcm))
                name visited n Hn ltac:(lia)) as Hbig.
  rewrite make_node_fuel_enough in Hbig by lia. congruence.
Qed.

Lemma make_node_terminates_witness :
  make_node_fuel 3 "a" two_cycle ∅ = Some (make_node "a" two_cycle ∅) ∧
  make_node_fuel 3 "a" two_cycle ∅ = Some (make_node "a" two_cycle ∅).
Proof.
  split.
  - apply (proj1 (make_node_terminates two_cycle "a" ∅) 3). simpl. lia.
  - apply (proj1 (proj2 (make_node_terminates two_cycle "a" ∅))
             2 two_cycle_paths 3).
    lia.
Defined.

End MakeNode.

(** ** build_tree *)

Section BuildTree.
Import OrderedDict OrderedDictFacts.

Lemma elem_of_all_children pcm x :
  x ∈ all_children pcm ↔ ∃ q kids, (q, kids) ∈ pcm ∧ x ∈ kids.
Proof.
  unfold all_children, values.
  rewrite elem_of_list_to_set, list_elem_of_join. split.
  - intros (kids & Hx & ([q kids'] & -> & Hq)%list_elem_of_fmap). eauto.
  - intros (q & kids & Hq & Hx). exists kids. split; [done|].
    apply list_elem_of_fmap. by exists (q, kids).
Qed.

Lemma not_elem_of_all_children pcm x :
  x ∉ all_children pcm ↔ never_child pcm x.
Proof.
  rewrite elem_of_all_children. unfold never_child. split.
  - intros H q kids Hq Hx. apply H. eauto.
  - intros H (q & kids & Hq & Hx). by eapply H.
Qed.

Lemma root_names_build_tree pcm : root_names (build_tree pcm) = roots pcm.
Proof.
  unfold build_tree.
  assert (node_name <$> ((λ r, make_node r pcm ∅) <$> roots pcm) = roots pcm)
    as Hnames.
  { rewrite <-list_fmap_compose. rewrite <-(list_fmap_id (roots pcm)) at 2.
    apply list_fmap_ext. intros _ r _. apply make_node_name. }
  destruct (_ <$> roots pcm) as [|n [|n' ns]]; done.
Qed.

Lemma elem_of_qualifying pcm p :
  p ∈ filter (λ p, p ∉ all_children pcm) (keys pcm)
  ↔ p ∈ keys pcm ∧ never_child pcm p.
Proof. rewrite list_elem_of_filter, not_elem_of_all_children. tauto. Qed.

Lemma roots_some pcm :
  (∃ p, p ∈ keys pcm ∧ never_child pcm p) →
  ∀ p, p ∈ roots pcm ↔ p ∈ keys pcm ∧ never_child pcm p.
Proof.
  intros (r & Hr%elem_of_qualifying) p. unfold roots.
  destruct (filter _ (keys pcm)) eqn:Hf; [by apply elem_of_nil in Hr|].
  rewrite <-Hf. apply elem_of_qualifying.
Qed.

Lemma roots_fallback pcm :
  (∀ p, p ∈ keys pcm → ¬ never_child pcm p) → roots pcm = keys pcm.
Proof.
  intros Hall. unfold roots.
  destruct (filter _ (keys pcm)) as [|r rs] eqn:Hf; [done|].
  assert (r ∈ filter (λ p, p ∉ all_children pcm) (keys pcm)) as Hr
    by (rewrite Hf; left).
  apply elem_of_qualifying in Hr as [? ?]. by destruct (Hall r).
Qed.

(** C3: the roots are parents of the map, in the order of the map; when
    a parent is in no child list, the roots are exactly the parents that
    are in none; when every parent is in one, the roots are all the
    parents; they are the names at the top of what [build_tree] returns;
    and the roots of [{a: [b], b: [c]}] are [[a]]. *)
Theorem roots_spec :
  (∀ pcm,
     roots pcm `sublist_of` keys pcm ∧
     root_names (build_tree pcm) = roots pcm ∧
     ((∃ p, p ∈ keys pcm ∧ never_child pcm p) →
      ∀ p, p ∈ roots pcm ↔ p ∈ keys pcm ∧ never_child pcm p) ∧
     ((∀ p, p ∈ keys pcm → ¬ never_child pcm p) →
      roots pcm = keys pcm)) ∧
  roots chain_abc = ["a"].
Proof.
  split; [|by vm_compute]. intros pcm.
  split_and!; [|apply root_names_build_tree|apply roots_some|apply roots_fallback].
  unfold roots. destruct (filter _ (keys pcm)) eqn:Hf; [done|].
  rewrite <-Hf. apply sublist_filter.
Qed.

Lemma roots_spec_witness :
  (∀ p, p ∈ roots chain_abc ↔ p ∈ keys chain_abc ∧ never_child chain_abc p) ∧
  roots two_cycle = keys two_cycle.
Proof.
  split.
  - apply (proj1 roots_spec chain_abc). exists "a". split; [by left|].
    apply not_elem_of_all_children. unfold all_children.
    rewrite elem_of_list_to_set. simpl. rewrite !elem_of_cons, elem_of_nil.
    intros [?|[?|[]]]; done.
  - apply (proj1 roots_spec two_cycle). intros p Hp Hnc.
    apply not_elem_of_all_children in Hnc. apply Hnc. unfold all_children.
    rewrite elem_of_list_to_set. simpl. unfold keys in Hp. simpl in Hp.
    rewrite !elem_of_cons, elem_of_nil in *. tauto.
Defined.

(** C10: the empty map gives the empty list of trees. *)
Theorem build_tree_empty : build_tree empty = Forest [].
Proof. reflexivity. Qed.

End BuildTree.

(** ** The whole conversion *)

Section Pipeline.

(** C1, as the claim states it, fails: the names of the result have lost
    their trailing digits. *)
Lemma pipeline_two_rows_digits :
  pipeline two_rows
  ≠ Some (Single (Node "Root" [Node "Child1" [Node "Grandchild1" []];
                               Node "Child2" []])).
Proof. by vm_compute. Qed.

(** C1, amended: the two rows give the single tree of [Root] with the
    children [Child], which has the child [Grandchild], and [Child]. *)
Theorem pipeline_two_rows :
  pipeline two_rows
  = Some (Single (Node "Root" [Node "Child" [Node "Grandchild" []];
                               Node "Child" []])).
Proof. by vm_compute. Qed.

End Pipeline.

(** ** transform_names *)

Section TransformNames.

(** Induction on trees, with the children as a list. *)
Lemma node_ind_children (P : node → Prop) :
  (∀ name children, Forall P children → P (Node name children)) →
  ∀ n, P n.
Proof.
  intros HP. fix IH 1. intros [name children]. apply HP.
  induction children as [|c children IHc]; constructor; [apply IH|exact IHc].
Qed.

Lemma lnode_ind_children (P : lnode → Prop) :
  (∀ place name children, Forall P children → P (LNode place name children)) →
  ∀ t, P t.
Proof.
  intros HP. fix IH 1. intros [place name children]. apply HP.
  induction children as [|c children IHc]; constructor; [apply IH|exact IHc].
Qed.

(** *** On trees *)

Lemma transform_names_shape n : shape_of (transform_names n) = shape_of n.
Proof.
  induction n as [name children IH] using node_ind_children. simpl. f_equal.
  rewrite <-list_fmap_compose. apply Forall_fmap_ext_1.
  eapply Forall_impl; [exact IH|]. by intros c Hc.
Qed.

Lemma transform_names_names n :
  names_of (transform_names n) = clean_name <$> names_of n.
Proof.
  induction n as [name children IH] using node_ind_children. simpl. f_equal.
  rewrite <-list_fmap_compose.
  induction IH as [|c children Hc _ IHcs]; [done|].
  simpl. rewrite fmap_app. by f_equal.
Qed.

Lemma erase_clean_layout t : erase (clean_layout t) = transform_names (erase t).
Proof.
  induction t as [place name children IH] using lnode_ind_children.
  simpl. f_equal. rewrite <-!list_fmap_compose. apply Forall_fmap_ext_1.
  eapply Forall_impl; [exact IH|]. by intros c Hc.
Qed.

(** *** In the store *)

Lemma lnode_place_clean_layout t : lnode_place (clean_layout t) = lnode_place t.
Proof. by destruct t. Qed.

Lemma places_clean_layout t : places (clean_layout t) = places t.
Proof.
  induction t as [place name children IH] using lnode_ind_children.
  simpl. f_equal. rewrite <-list_fmap_compose. f_equal.
  apply Forall_fmap_ext_1. eapply Forall_impl; [exact IH|]. by intros c Hc.
Qed.

Lemma elem_of_places_children c (children : list lnode) a :
  c ∈ children → a ∈ places c → a ∈ mjoin (places <$> children).
Proof.
  intros Hc Ha. apply list_elem_of_join. exists (places c). split; [done|].
  by apply list_elem_of_fmap_2.
Qed.

(** A store that agrees with [σ] on the places of a tree holds the tree
    if [σ] does. *)
Lemma stored_agree σ σ' t :
  stored σ t → (∀ a, a ∈ places t → σ' !! a = σ !! a) → stored σ' t.
Proof.
  revert σ σ'.
  induction t as [place name children IH] using lnode_ind_children.
  intros σ σ' Hst Hag. inversion_clear Hst as [? ? ? Hplace Hch].
  constructor.
  - rewrite Hag; [done|]. simpl. by left.
  - rewrite Forall_forall in IH, Hch. apply Forall_forall. intros c Hc.
    apply (IH c Hc σ σ' (Hch c Hc)). intros a Ha. apply Hag. simpl. right.
    by eapply elem_of_places_children.
Qed.

Lemma transform_names_store_S fuel node σ :
  transform_names_store (S fuel) node σ
  = (o ← σ !! node;
     σ2 ← for_each (λ child σ, snd <$> transform_names_store fuel child σ)
            (obj_children o)
            (<[node := Obj (clean_name (obj_name o)) (obj_children o)]> σ);
     Some (node, σ2)).
Proof. done. Qed.

(** What every turn of a loop keeps, the loop keeps. *)
Lemma for_each_preserves (R : store → store → Prop) body :
  (∀ σ, R σ σ) → (∀ σ1 σ2 σ3, R σ1 σ2 → R σ2 σ3 → R σ1 σ3) →
  (∀ child σ σ', body child σ = Some σ' → R σ σ') →
  ∀ children σ σ', for_each body children σ = Some σ' → R σ σ'.
Proof.
  intros Hrefl Htrans Hbody.
  induction children as [|c children IH]; intros σ σ'; simpl.
  - by intros [= <-].
  - destruct (body c σ) as [σ1|] eqn:Hc; [|done]. simpl. intros Hrest.
    eapply Htrans; [by eapply Hbody|by apply IH].
Qed.

(** In any store, a call that returns gives back the place it was given
    and has left the list of children of every object as it was. *)
Lemma transform_names_store_frame fuel : ∀ node σ r σ',
  transform_names_store fuel node σ = Some (r, σ') →
  r = node ∧ ∀ a, obj_children <$> σ' !! a = obj_children <$> σ !! a.
Proof.
  induction fuel as [|fuel IH]; intros node σ r σ'; [done|].
  rewrite transform_names_store_S.
  destruct (σ !! node) as [o|] eqn:Ho; [|done]. simpl.
  destruct (for_each _ _ _) as [σ2|] eqn:Hloop; [|done]. simpl.
  intros [= <- <-]. split; [done|]. intros a.
  apply (for_each_preserves
           (λ σ σ', ∀ a, obj_children <$> σ' !! a = obj_children <$> σ !! a))
    with (a := a) in Hloop.
  - rewrite Hloop. destruct (decide (a = node)) as [->|Hne].
    + by rewrite lookup_insert_eq, Ho.
    + by rewrite lookup_insert_ne.
  - done.
  - intros σa σb σc Hab Hbc b. by rewrite Hbc, Hab.
  - intros child σa σb Hchild.
    destruct (transform_names_store fuel child σa) as [[r' σb']|] eqn:Hcall;
      [|done].
    simpl in Hchild. injection Hchild as <-. by eapply IH.
Qed.

(** The loop over the children of a node whose subtrees the calls
    transform. *)
Lemma for_each_children fuel (children : list lnode) :
  Forall (λ c, ∀ σ, stored σ c → NoDup (places c) →
            ∃ σ', transform_names_store fuel (lnode_place c) σ
                  = Some (lnode_place c, σ') ∧
                  stored σ' (clean_layout c) ∧
                  ∀ a, a ∉ places c → σ' !! a = σ !! a) children →
  ∀ σ, Forall (stored σ) children →
    NoDup (mjoin (places <$> children)) →
    ∃ σ', for_each (λ child σ, snd <$> transform_names_store fuel child σ)
            (lnode_place <$> children) σ = Some σ' ∧
          Forall (stored σ') (clean_layout <$> children) ∧
          ∀ a, a ∉ mjoin (places <$> children) → σ' !! a = σ !! a.
Proof.
  induction 1 as [|c children Hc _ IH]; intros σ Hst Hnd; simpl.
  - exists σ. by split_and!.
  - apply Forall_cons in Hst as [Hstc Hstcs].
    simpl in Hnd. apply NoDup_app in Hnd as (Hndc & Hdisj & Hndcs).
    destruct (Hc σ Hstc Hndc) as (σ1 & Hcall & Hc1 & Hframe1).
    destruct (IH σ1) as (σ2 & Hloop & Hcs2 & Hframe2); [|done|].
    { rewrite Forall_forall in Hstcs. apply Forall_forall. intros d Hd.
      apply (stored_agree σ); [by apply Hstcs|].
      intros a Ha. apply Hframe1. intros Hac. apply (Hdisj a Hac).
      by eapply elem_of_places_children. }
    exists σ2. rewrite Hcall. simpl. split_and!; [done| |].
    + constructor; [|done]. apply (stored_agree σ1); [done|].
      intros a Ha. apply Hframe2. rewrite places_clean_layout in Ha.
      by apply Hdisj.
    + intros a [Hac Hacs]%not_elem_of_app.
      by rewrite Hframe2, Hframe1.
Qed.

(** In a store that holds a tree, no place twice, the call at the root
    returns as soon as the fuel is the height of the tree; it gives back
    the root, leaves the same layout with every name cleaned, and
    touches nothing outside the tree. *)
Lemma transform_names_store_tree t : ∀ σ fuel,
  stored σ t → NoDup (places t) → height t ≤ fuel →
  ∃ σ', transform_names_store fuel (lnode_place t) σ
        = Some (lnode_place t, σ') ∧
        stored σ' (clean_layout t) ∧
        ∀ a, a ∉ places t → σ' !! a = σ !! a.
Proof.
  induction t as [place name children IH] using lnode_ind_children.
  intros σ fuel Hst Hnd Hfuel. destruct fuel as [|fuel]; [simpl in Hfuel; lia|].
  simpl in Hfuel, Hnd. apply NoDup_cons in Hnd as [Hplace Hnd].
  inversion_clear Hst as [? ? ? Hobj Hch].
  rewrite transform_names_store_S. simpl. rewrite Hobj. simpl.
  set (σ1 := <[place := Obj (clean_name name) (lnode_place <$> children)]> σ).
  destruct (for_each_children fuel children) with (σ := σ1)
    as (σ2 & Hloop & Hcs & Hframe); [| |done|].
  - rewrite Forall_forall in IH. apply Forall_forall. intros c Hc σc Hstc Hndc.
    apply IH; [done..|].
    assert (height c ≤ max_list (height <$> children)); [|lia].
    apply max_list_elem_of_le. by apply list_elem_of_fmap_2.
  - rewrite Forall_forall in Hch. apply Forall_forall. intros c Hc.
    apply (stored_agree σ); [by apply Hch|].
    intros a Ha. unfold σ1. rewrite lookup_insert_ne; [done|].
    intros ->. apply Hplace. by eapply elem_of_places_children.
  - exists σ2. rewrite Hloop. simpl. split_and!; [done| |].
    + constructor; [|done]. rewrite Hframe by done. unfold σ1.
      rewrite lookup_insert_eq. do 2 f_equal.
      rewrite <-list_fmap_compose. apply list_fmap_ext.
      intros _ c _. simpl. by rewrite lnode_place_clean_layout.
    + intros a [Hne Ha]%not_elem_of_cons. rewrite Hframe by done.
      unfold σ1. by rewrite lookup_insert_ne.
Qed.

(** C9: [transform_names] changes names only.  On a tree, the result
    has the shape of the argument and, node by node, the cleaned names.
    In the store, a call that returns gives back the very place it was
    given and leaves every list of children as it was; and on a store
    that holds a tree it does return, the store then holds the same
    layout, no node moved, added or lost, with the names cleaned: the
    tree that the function on trees computes. *)
Theorem transform_names_structure :
  (∀ n, shape_of (transform_names n) = shape_of n ∧
        names_of (transform_names n) = clean_name <$> names_of n) ∧
  (∀ fuel node σ r σ',
     transform_names_store fuel node σ = Some (r, σ') →
     r = node ∧ ∀ a, obj_children <$> σ' !! a = obj_children <$> σ !! a) ∧
  (∀ t σ fuel,
     stored σ t → NoDup (places t) → height t ≤ fuel →
     ∃ σ', transform_names_store fuel (lnode_place t) σ
           = Some (lnode_place t, σ') ∧
           stored σ' (clean_layout t) ∧
           erase (clean_layout t) = transform_names (erase t) ∧
           ∀ a, a ∉ places t → σ' !! a = σ !! a).
Proof.
  split_and!.
  - intros n. split; [apply transform_names_shape|apply transform_names_names].
  - intros fuel. apply transform_names_store_frame.
  - intros t σ fuel Hst Hnd Hfuel.
    destruct (transform_names_store_tree t σ fuel Hst Hnd Hfuel)
      as (σ' & ? & ? & ?).
    exists σ'. split_and!; [done..|apply erase_clean_layout|done].
Qed.

Lemma two_nodes_stored : stored two_nodes two_nodes_layout.
Proof. repeat constructor. Qed.

Lemma transform_names_structure_witness :
  (0 = 0 ∧
   ∀ a, obj_children <$> two_nodes_cleaned !! a
        = obj_children <$> two_nodes !! a) ∧
  ∃ σ', transform_names_store 2 0 two_nodes = Some (0, σ') ∧
        stored σ' (clean_layout two_nodes_layout) ∧
        erase (clean_layout two_nodes_layout)
        = transform_names (erase two_nodes_layout) ∧
        ∀ a, a ∉ places two_nodes_layout → σ' !! a = two_nodes !! a.
Proof.
  destruct transform_names_structure as (_ & Hframe & Htree). split.
  - apply (Hframe 2 0 two_nodes 0 two_nodes_cleaned). by vm_compute.
  - apply (Htree two_nodes_layout two_nodes 2).
    + apply two_nodes_stored.
    + simpl. apply NoDup_cons. split; [|apply NoDup_singleton].
      rewrite list_elem_of_singleton. lia.
    + simpl. lia.
Defined.

End TransformNames.

(** * Further properties *)

(** ** Strings *)

Module PyMore.
Import Py PyFacts.

Lemma is_delim_lower_char c : is_delim (lower_char c) = is_delim c.
Proof. all_chars c. Qed.

Lemma isdigit_lower_char c : isdigit (lower_char c) = isdigit c.
Proof. all_chars c. Qed.

Lemma isdigit_upper_char c : isdigit (upper_char c) = isdigit c.
Proof. all_chars c. Qed.

Lemma upper_char_idemp c : upper_char (upper_char c) = upper_char c.
Proof. all_chars c. Qed.

Lemma lower_upper_char c : lower_char (upper_char c) = lower_char c.
Proof. all_chars c. Qed.

Lemma has_delim_String c s :
  has_delim (String c s) = is_delim c || has_delim s.
Proof.
  unfold has_delim. simpl.
  destruct c as [[] [] [] [] [] [] [] []]; simpl;
    repeat (case_decide; try discriminate); simpl;
    by rewrite ?orb_true_r.
Qed.


Lemma has_delim_lower s : has_delim (lower s) = has_delim s.
Proof.
  induction s as [|c s IH]; [done|]. simpl.
  by rewrite !has_delim_String, is_delim_lower_char, IH.
Qed.

Lemma every_char_lower P s :
  (∀ c, P (lower_char c) = P c) → every_char P (lower s) = every_char P s.
Proof. intros HP. induction s as [|c s IH]; simpl; [done|]. by rewrite HP, IH. Qed.




(** [strip] takes blanks away and nothing else. *)
Lemma every_char_lstrip_blank P s :
  (∀ c, isspace c = true → P c = true) →
  every_char P (lstrip s) = every_char P s.
Proof.
  intros HP. induction s as [|c s IH]; simpl; [done|].
  destruct (isspace c) eqn:Hc; [|done]. by rewrite IH, (HP c Hc).
Qed.

Lemma every_char_rstrip_blank P s :
  (∀ c, isspace c = true → P c = true) →
  every_char P (rstrip s) = every_char P s.
Proof.
  intros HP. induction s as [|c s IH]; simpl; [done|].
  rewrite <-IH. destruct (rstrip s) as [|d r]; simpl.
  - destruct (isspace c) eqn:Hc; simpl; [by rewrite (HP c Hc)|].
    by rewrite andb_true_r.
  - done.
Qed.

Lemma every_char_strip_blank P s :
  (∀ c, isspace c = true → P c = true) →
  every_char P (strip s) = every_char P s.
Proof.
  intros HP. unfold strip.
  by rewrite every_char_lstrip_blank, every_char_rstrip_blank.
Qed.

Lemma lstrip_empty s : lstrip s = "" ↔ every_char isspace s = true.
Proof.
  induction s as [|c s IH]; simpl; [done|].
  destruct (isspace c); simpl; [done|]. split; discriminate.
Qed.

Lemma strip_empty s : strip s = "" ↔ every_char isspace s = true.
Proof.
  unfold strip. rewrite lstrip_empty. by rewrite every_char_rstrip_blank.
Qed.


End PyMore.

(** ** Splitting and normalizing *)

Section Splitting.
Import Py PyFacts PyMore.

Lemma split_scan_cons b s : ∃ p ps, split_scan b s = p :: ps.
Proof.
  revert b. induction s as [|c s IH]; intros b; simpl; [by eexists _, _|].
  destruct (is_delim c).
  - destruct b; [apply IH|by eexists _, _].
  - destruct (IH false) as (p & ps & ->). by eexists _, _.
Qed.

Lemma split_scan_no_delim b s p :
  p ∈ split_scan b s → has_delim p = false.
Proof.
  revert b p. induction s as [|c s IH]; intros b p; simpl.
  - by intros ->%list_elem_of_singleton.
  - destruct (is_delim c) eqn:Hc.
    + destruct b; [apply IH|].
      intros [->|Hp]%elem_of_cons; [done|by eapply IH].
    + destruct (split_scan_cons false s) as (q & qs & Hq). rewrite Hq.
      intros [->|Hp]%elem_of_cons.
      * rewrite has_delim_String, Hc. simpl. apply (IH false). rewrite Hq. by left.
      * apply (IH false). rewrite Hq. by right.
Qed.

Lemma concat_parts_split_scan b s :
  concat_parts (split_scan b s) = without_delims s.
Proof.
  revert b. induction s as [|c s IH]; intros b; simpl; [done|].
  destruct (is_delim c).
  - destruct b; [apply IH|]. simpl. apply IH.
  - specialize (IH false).
    destruct (split_scan false s) as [|q qs]; simpl in *; by rewrite <-IH.
Qed.

Lemma split_scan_whole b s : has_delim s = false → split_scan b s = [s].
Proof.
  revert b. induction s as [|c s IH]; intros b; simpl; [done|].
  rewrite has_delim_String. intros [-> Hs]%orb_false_iff.
  by rewrite (IH false Hs).
Qed.

Lemma every_char_app P s1 s2 :
  every_char P (s1 +:+ s2) = every_char P s1 && every_char P s2.
Proof.
  induction s1 as [|c s1 IH]; [done|].
  change (String c s1 +:+ s2) with (String c (s1 +:+ s2)). simpl.
  by rewrite IH, andb_assoc.
Qed.

Lemma every_char_concat_parts P ps :
  every_char P (concat_parts ps) = true
  ↔ Forall (λ p, every_char P p = true) ps.
Proof.
  induction ps as [|p ps IH]; simpl.
  - split; [constructor|done].
  - rewrite every_char_app, andb_true_iff, Forall_cons, IH. done.
Qed.

Lemma every_char_without_delims P s :
  every_char P (without_delims s)
  = every_char (λ c, is_delim c || P c) s.
Proof.
  induction s as [|c s IH]; simpl; [done|].
  destruct (is_delim c); simpl; by rewrite IH.
Qed.

(** X5: [SPLIT_RE.split] loses the delimiters and nothing else: no part holds
    one, the parts put together again are the string without its
    delimiters, there is always a part, and a string without a delimiter
    is its only part. *)
Theorem SPLIT_RE_split_parts s :
  (∀ p, p ∈ SPLIT_RE_split s → has_delim p = false) ∧
  concat_parts (SPLIT_RE_split s) = without_delims s ∧
  SPLIT_RE_split s ≠ [] ∧
  (has_delim s = false → SPLIT_RE_split s = [s]).
Proof.
  unfold SPLIT_RE_split. split_and!.
  - intros p. apply split_scan_no_delim.
  - apply concat_parts_split_scan.
  - by destruct (split_scan_cons false s) as (p & ps & ->).
  - apply split_scan_whole.
Qed.

Lemma SPLIT_RE_split_parts_witness : SPLIT_RE_split "ann" = ["ann"].
Proof. by apply (SPLIT_RE_split_parts "ann"). Defined.




Lemma filter_empty (P : string → Prop) `{!∀ x, Decision (P x)}
    (l : list string) :
  filter P l = [] ↔ Forall (λ x, ¬ P x) l.
Proof.
  induction l as [|x l IH]; [by split; [constructor|]|].
  rewrite filter_cons, Forall_cons. case_decide; [|by rewrite IH; tauto].
  split; [done|tauto].
Qed.

End Splitting.

(** ** The adjacency map, further *)

Section AdjacencyMore.
Import Py PyFacts PyMore OrderedDict OrderedDictFacts.


Lemma elem_of_entries df e :
  e ∈ entries df ↔ ∃ row, row ∈ df ∧ row_entry row = Some e.
Proof. unfold entries. rewrite list_elem_of_omap. naive_solver. Qed.

Lemma elem_of_children_under parent es ch :
  ch ∈ children_under parent es ↔ ∃ raw, (parent, raw) ∈ es ∧ ch ∈ raw.
Proof.
  unfold children_under. rewrite list_elem_of_bind. split.
  - intros ([p raw] & Hch & He). simpl in Hch. case_decide as Hp.
    + simpl in Hp. subst. eauto.
    + by apply elem_of_nil in Hch.
  - intros (raw & He & Hch). exists (parent, raw). simpl.
    by rewrite decide_True.
Qed.







Lemma build_parent_child_map_keys_witness :
  keys [("b", ["x"]); ("a", ["y"])]
  = first_occurrences (parents [["b"; "x"]; ["a"; "y"]; ["B"]]) ∧
  ∀ parent,
    is_Some (get parent [("b", ["x"]); ("a", ["y"])])
    ↔ parent ∈ parents [["b"; "x"]; ["a"; "y"]; ["B"]].
Proof.
  apply (build_parent_child_map_keys [["b"; "x"]; ["a"; "y"]; ["B"]]).
  by vm_compute.
Defined.

Lemma set_get_id k v d : get k d = Some v → set k v d = d.
Proof.
  induction d as [|[k' v'] d IH]; simpl; [done|].
  case_decide; [by intros [= ->]; subst|]. intros Hk. by rewrite IH.
Qed.

Lemma add_rows_app df df' : ∀ pcm,
  add_rows pcm (df ++ df') = add_rows pcm df ≫= λ pcm', add_rows pcm' df'.
Proof.
  induction df as [|row df IH]; intros pcm; simpl; [done|].
  destruct (add_row pcm row); simpl; [apply IH|done].
Qed.

Lemma foldl_merge_step_known kids raw :
  (∀ ch, ch ∈ raw → ch ∈ kids) → foldl merge_step kids raw = kids.
Proof.
  intros Hraw. rewrite foldl_merge_step.
  assert (filter (λ ch, ch ∉ kids) (first_occurrences raw) = []) as ->;
    [|apply app_nil_r].
  apply filter_empty, Forall_forall.
  intros ch Hch Hn. apply Hn, Hraw.
  by apply (proj1 (elem_of_first_occurrences ch raw)).
Qed.

(** X9: going again through a row of the table leaves the map as it is. *)
Theorem build_parent_child_map_row_again df pcm row :
  build_parent_child_map df = Some pcm → row ∈ df →
  build_parent_child_map (df ++ [row]) = Some pcm.
Proof.
  intros Hb Hrow. unfold build_parent_child_map in *.
  rewrite add_rows_app, Hb. simpl.
  assert (row ≠ []) as Hne.
  { assert (is_Some (add_rows empty df)) as Hs by (by eexists).
    apply add_rows_is_Some in Hs. rewrite Forall_forall in Hs. by apply Hs. }
  apply (add_row_is_Some pcm) in Hne as [pcm' Hadd]. rewrite Hadd. simpl.
  f_equal. apply add_row_entry in Hadd as ->.
  destruct (row_entry row) as [[parent raw]|] eqn:He; [|done].
  apply build_parent_child_map_holds in Hb as [_ Hget].
  assert ((parent, raw) ∈ entries df) as Hin
    by (apply elem_of_entries; eauto).
  specialize (Hget parent). rewrite decide_True in Hget
    by (apply list_elem_of_fmap; by exists (parent, raw)).
  rewrite Hget. simpl. rewrite foldl_merge_first_occurrences.
  rewrite foldl_merge_step_known; [by apply set_get_id|].
  intros ch Hch. apply elem_of_first_occurrences, elem_of_children_under. eauto.
Qed.

Lemma build_parent_child_map_row_again_witness :
  build_parent_child_map ([["a"; "b"]; ["a"; "c"]] ++ [["a"; "b"]])
  = Some [("a", ["b"; "c"])].
Proof.
  apply (build_parent_child_map_row_again [["a"; "b"]; ["a"; "c"]]).
  - by vm_compute.
  - by left.
Defined.

(** X10: a row whose first cell is blank or a marker of a missing value
    counts for nothing: without such rows the map is the same. *)
Theorem build_parent_child_map_skips df pcm :
  build_parent_child_map df = Some pcm →
  build_parent_child_map (filter (λ row, is_Some (row_entry row)) df)
  = Some pcm.
Proof.
  unfold build_parent_child_map. generalize empty.
  induction df as [|row df IH]; intros pcm0; [done|]. simpl.
  destruct (add_row pcm0 row) as [pcm1|] eqn:Hadd; [|done]. simpl.
  intros Hrest. rewrite filter_cons. case_decide as He.
  - simpl. rewrite Hadd. simpl. by apply IH.
  - apply add_row_entry in Hadd.
    destruct (row_entry row); [by destruct He|]. subst. by apply IH.
Qed.

Lemma build_parent_child_map_skips_witness :
  build_parent_child_map
    (filter (λ row, is_Some (row_entry row))
       [["a"; "b"]; [" "; "x"]; ["NaN"; "y"]; ["a"; "c"]])
  = Some [("a", ["b"; "c"])].
Proof.
  apply (build_parent_child_map_skips
           [["a"; "b"]; [" "; "x"]; ["NaN"; "y"]; ["a"; "c"]]).
  by vm_compute.
Defined.

End AdjacencyMore.

(** ** The tree of make_node, further *)

Section TreeMore.
Import OrderedDict OrderedDictFacts.

Lemma mapM_elem (f : string → option node) l k c :
  mapM f l = Some k → c ∈ k → ∃ ch, ch ∈ l ∧ f ch = Some c.
Proof.
  intros Hm%mapM_Some (i & Hi)%list_elem_of_lookup.
  destruct (Forall2_lookup_r _ _ _ _ _ Hm Hi) as (ch & Hch & Hf).
  exists ch. split; [|done]. apply list_elem_of_lookup. eauto.
Qed.

Lemma make_node_fuel_branches pcm fuel : ∀ name visited n p,
  make_node_fuel fuel name pcm visited = Some n → branch n p →
  head p = Some name ∧ linked pcm p ∧
  ∀ q x, p = q ++ [x] → NoDup q ∧ ∀ y, y ∈ q → y ∉ visited.
Proof.
  induction fuel as [|fuel IH]; intros name visited n p; [done|].
  rewrite make_node_fuel_S.
  assert (head [name] = Some name ∧ linked pcm [name] ∧
          ∀ q x, [name] = q ++ [x] → NoDup q ∧ ∀ y, y ∈ q → y ∉ visited)
    as Hroot.
  { split_and!; [done|constructor|].
    intros [|z q] x Hq; [split; [constructor|by intros ? ?%elem_of_nil]|].
    by destruct q. }
  case_bool_decide as Hvis.
  - intros [= <-] Hbr. inversion Hbr as [|? ? c p' Hc]; subst; [done|].
    by apply elem_of_nil in Hc.
  - destruct (mapM _ _) as [cs|] eqn:Hcs; [|done]. simpl. intros [= <-] Hbr.
    inversion Hbr as [|? ? c p' Hc Hp']; subst; [done|].
    destruct (mapM_elem _ _ _ _ Hcs Hc) as (ch & Hch & Hcall).
    destruct (IH _ _ _ _ Hcall Hp') as (Hhd & Hlk & Hq).
    destruct p' as [|z p'']; [done|]. injection Hhd as ->.
    split_and!; [done|by constructor|].
    intros [|w q] x Heq; [by destruct p''|]. injection Heq as -> Heq.
    destruct (Hq q x Heq) as [Hnd Hout]. split.
    + apply NoDup_cons. split; [|done]. intros Hin.
      apply (Hout _ Hin). set_solver.
    + intros y [->|Hy]%elem_of_cons; [done|].
      intros Hyv. apply (Hout y Hy). set_solver.
Qed.

(** X11: every branch of the node that [make_node] returns starts with the
    name asked for and goes down along edges of the map; on it no name
    comes twice, the last one apart, and no name but the last is in the
    visited set: a name is never opened twice on a branch. *)
Theorem make_node_branches name pcm visited p :
  branch (make_node name pcm visited) p →
  head p = Some name ∧ linked pcm p ∧
  ∀ q x, p = q ++ [x] → NoDup q ∧ ∀ y, y ∈ q → y ∉ visited.
Proof.
  apply (make_node_fuel_branches pcm (S (length pcm))).
  by apply make_node_fuel_enough.
Qed.

Lemma make_node_branches_witness :
  head ["a"; "b"; "a"] = Some "a" ∧ linked two_cycle ["a"; "b"; "a"] ∧
  ∀ q x, ["a"; "b"; "a"] = q ++ [x] → NoDup q ∧ ∀ y, y ∈ q → y ∉ (∅ : gset string).
Proof.
  apply (make_node_branches "a" two_cycle ∅).
  assert (make_node "a" two_cycle ∅ = Node "a" [Node "b" [Node "a" []]]) as ->
    by (by vm_compute).
  apply (branch_child "a" _ (Node "b" [Node "a" []])); [by left|].
  apply (branch_child "b" _ (Node "a" [])); [by left|].
  apply branch_root.
Defined.

Lemma max_list_le ns m : Forall (λ n, n ≤ m) ns → max_list ns ≤ m.
Proof. induction 1; simpl; lia. Qed.

Lemma make_node_fuel_height pcm fuel : ∀ name visited n,
  make_node_fuel fuel name pcm visited = Some n → node_height n ≤ fuel.
Proof.
  induction fuel as [|fuel IH]; intros name visited n; [done|].
  rewrite make_node_fuel_S. case_bool_decide.
  - intros [= <-]. simpl. lia.
  - destruct (mapM _ _) as [cs|] eqn:Hcs; [|done]. simpl. intros [= <-].
    simpl. apply le_n_S, max_list_le, Forall_fmap, Forall_forall.
    intros c Hc. destruct (mapM_elem _ _ _ _ Hcs Hc) as (ch & _ & Hcall).
    by eapply IH.
Qed.

Lemma make_node_fuel_acyclic pcm L fuel name visited :
  (∀ p, acyclic_path pcm p → length p ≤ L) → S L ≤ fuel →
  make_node_fuel fuel name pcm visited = Some (make_node name pcm visited).
Proof.
  intros HL Hfuel.
  destruct (make_node_fuel_bound (in_map pcm) pcm L (λ _ Hx, or_introl Hx) HL
              fuel name visited) as [n Hn]; [done|].
  rewrite Hn. f_equal.
  pose proof (make_node_fuel_mono pcm fuel (fuel + S (length pcm))
                name visited n Hn ltac:(lia)) as Hbig.
  rewrite make_node_fuel_enough in Hbig by lia. congruence.
Qed.

(** X13: the tree that [make_node] returns is no higher than the number of
    parents of the map and one, and no higher than the number of tokens
    of the longest acyclic path of the map and one. *)
Theorem make_node_height name pcm visited :
  node_height (make_node name pcm visited) ≤ S (length pcm) ∧
  ∀ L, (∀ p, acyclic_path pcm p → length p ≤ L) →
       node_height (make_node name pcm visited) ≤ S L.
Proof.
  split.
  - apply (make_node_fuel_height pcm _ name visited).
    by apply make_node_fuel_enough.
  - intros L HL. apply (make_node_fuel_height pcm _ name visited).
    by apply (make_node_fuel_acyclic pcm L).
Qed.

Lemma make_node_height_witness :
  node_height (make_node "a" two_cycle ∅) ≤ 3.
Proof.
  apply (proj2 (make_node_height "a" two_cycle ∅) 2). apply two_cycle_paths.
Defined.

Lemma roots_nil pcm : roots pcm = [] ↔ pcm = [].
Proof.
  unfold roots. split; [|by intros ->].
  destruct (filter _ (keys pcm)); [|done]. by destruct pcm.
Qed.

(** X14: [build_tree] returns as many trees as there are roots; a map that is
    not empty has a root, so only the empty map gives the empty list; and
    a node alone is returned exactly when there is one root. *)
Theorem build_tree_count pcm :
  length (trees (build_tree pcm)) = length (roots pcm) ∧
  (build_tree pcm = Forest [] ↔ pcm = []) ∧
  ((∃ n, build_tree pcm = Single n) ↔ length (roots pcm) = 1).
Proof.
  rewrite <-roots_nil. unfold build_tree.
  destruct (roots pcm) as [|r [|r' rs]]; simpl.
  - split_and!; [done|done|]. split; [by intros [? ?]|done].
  - split_and!; [done|done|]. split; [done|by eexists].
  - split_and!; [by rewrite length_fmap|done|]. split; [by intros [? ?]|done].
Qed.

Lemma make_node_fuel_name pcm fuel name visited n :
  make_node_fuel fuel name pcm visited = Some n → node_name n = name.
Proof.
  destruct fuel as [|fuel]; [done|]. rewrite make_node_fuel_S.
  case_bool_decide; [by intros [= <-]|].
  destruct (mapM _ _); [|done]. by intros [= <-].
Qed.

Lemma make_node_fuel_subtrees pcm fuel : ∀ name visited n q x cs,
  make_node_fuel fuel name pcm visited = Some n →
  subtree_at n q (Node x cs) →
  (x ∈ q ∨ x ∈ visited → cs = []) ∧
  (x ∉ q → x ∉ visited → node_name <$> cs = children_of pcm x).
Proof.
  induction fuel as [|fuel IH]; intros name visited n q x cs; [done|].
  rewrite make_node_fuel_S. case_bool_decide as Hvis.
  - intros [= <-] Hsub. inversion Hsub as [|? ? c ? ? Hc]; subst.
    + split; [done|]. by intros _ ?.
    + by apply elem_of_nil in Hc.
  - destruct (mapM _ _) as [cs0|] eqn:Hcs; [|done]. simpl. intros [= <-] Hsub.
    inversion Hsub as [|? ? c q' ? Hc Hsub']; subst.
    + split; [by intros [?%elem_of_nil|?]|]. intros _ _.
      apply mapM_Some in Hcs. clear Hsub.
      induction Hcs as [|ch c chs cs' Hcall _ IHcs]; [done|].
      simpl. f_equal; [|done].
      exact (make_node_fuel_name _ _ _ _ _ Hcall).
    + destruct (mapM_elem _ _ _ _ Hcs Hc) as (ch & _ & Hcall).
      destruct (IH _ _ _ _ _ _ Hcall Hsub') as [Hrep Hnew]. split.
      * intros [[->|?]%elem_of_cons|?]; apply Hrep; set_solver.
      * intros [? ?]%not_elem_of_cons ?. apply Hnew; set_solver.
Qed.

(** X12: [make_node] leaves out children only where a name comes again: a
    node whose name is the name of none of the nodes above it, nor in the
    visited set, has the children that the map gives its name, in the
    order of the map; the other nodes have none. *)
Theorem make_node_subtrees name pcm visited q x cs :
  subtree_at (make_node name pcm visited) q (Node x cs) →
  (x ∈ q ∨ x ∈ visited → cs = []) ∧
  (x ∉ q → x ∉ visited → node_name <$> cs = children_of pcm x).
Proof.
  apply (make_node_fuel_subtrees pcm (S (length pcm)) name).
  by apply make_node_fuel_enough.
Qed.

Lemma make_node_subtrees_witness :
  ("b" ∈ ["a"] ∨ "b" ∈ (∅ : gset string) → [Node "a" []] = []) ∧
  ("b" ∉ ["a"] → "b" ∉ (∅ : gset string) →
   node_name <$> [Node "a" []] = children_of two_cycle "b").
Proof.
  apply (make_node_subtrees "a" two_cycle ∅).
  assert (make_node "a" two_cycle ∅ = Node "a" [Node "b" [Node "a" []]]) as ->
    by (by vm_compute).
  apply (subtree_below "a" _ (Node "b" [Node "a" []])); [by left|].
  apply subtree_here.
Defined.

Lemma build_tree_count_witness :
  build_tree [] = Forest [] ∧ ∃ n, build_tree chain_abc = Single n.
Proof.
  split.
  - by apply (proj1 (proj2 (build_tree_count []))).
  - by apply (proj2 (proj2 (build_tree_count chain_abc))).
Defined.

End TreeMore.

(** ** transform_names on a store with a cycle *)

Section StoreCycle.

Lemma for_each_app body cs1 cs2 σ :
  for_each body (cs1 ++ cs2) σ = for_each body cs1 σ ≫= for_each body cs2.
Proof.
  revert σ. induction cs1 as [|c cs1 IH]; intros σ; simpl; [done|].
  destruct (body c σ); simpl; [apply IH|done].
Qed.

(** The calls change no link, so they change no cycle. *)
Lemma on_cycle_same_links σ σ' a :
  (∀ b, obj_children <$> σ' !! b = obj_children <$> σ !! b) →
  on_cycle σ a → on_cycle σ' a.
Proof.
  intros Hsame. unfold on_cycle. apply (tc_congruence id).
  intros x y (o & Ho & Hy). simpl. specialize (Hsame x). rewrite Ho in Hsame.
  destruct (σ' !! x) as [o'|] eqn:Ho'; [|done]. injection Hsame as Hsame.
  exists o'. split; [done|]. by rewrite Hsame.
Qed.

Lemma on_cycle_child σ a :
  on_cycle σ a → ∃ b, child_of σ a b ∧ on_cycle σ b.
Proof.
  unfold on_cycle. intros Htc. inversion Htc as [? ? Hab|? b ? Hab Hba]; subst.
  - exists a. split; [done|by apply tc_once].
  - exists b. split; [done|by eapply tc_r].
Qed.

(** X18: [transform_names] has no guard against cycles: at a node that is among
    its own descendants the recursion goes on at every depth, so no bound
    is large enough for the call to return. *)
Theorem transform_names_store_cycle fuel : ∀ σ node,
  on_cycle σ node → transform_names_store fuel node σ = None.
Proof.
  induction fuel as [|fuel IH]; intros σ node Hcyc; [done|].
  rewrite transform_names_store_S.
  destruct (on_cycle_child σ node Hcyc) as (b & (o & Ho & Hb) & Hbcyc).
  rewrite Ho. simpl.
  apply list_elem_of_split in Hb as (cs1 & cs2 & Hsplit).
  rewrite Hsplit at 1. rewrite for_each_app.
  destruct (for_each _ cs1 _) as [σ1|] eqn:Hpre; [|done]. simpl.
  rewrite IH; [done|].
  apply (on_cycle_same_links σ); [|done]. intros a.
  apply (for_each_preserves
           (λ σ σ', ∀ a, obj_children <$> σ' !! a = obj_children <$> σ !! a))
    with (a := a) in Hpre.
  - rewrite Hpre. destruct (decide (a = node)) as [->|Hne].
    + by rewrite lookup_insert_eq, Ho.
    + by rewrite lookup_insert_ne.
  - done.
  - intros σa σb σc Hab Hbc c. by rewrite Hbc, Hab.
  - intros c σa σb Hc.
    destruct (transform_names_store fuel c σa) as [[r σb']|] eqn:Hcall; [|done].
    simpl in Hc. injection Hc as <-.
    by apply (transform_names_store_frame fuel c σa r σb').
Qed.

Lemma transform_names_store_cycle_witness :
  transform_names_store 5 0 (<[0 := Obj "a" [1]]> (<[1 := Obj "b" [0]]> ∅))
  = None.
Proof.
  apply (transform_names_store_cycle 5).
  apply tc_l with 1.
  - exists (Obj "a" [1]). split; [by vm_compute|by left].
  - apply tc_once. exists (Obj "b" [0]). split; [by vm_compute|by left].
Defined.

End StoreCycle.

(** ** The whole conversion, further *)

Section PipelineMore.
Import OrderedDict OrderedDictFacts.

Lemma root_names_transform t :
  root_names match t with
             | Forest ts => Forest (transform_names <$> ts)
             | Single n => Single (transform_names n)
             end
  = clean_name <$> root_names t.
Proof.
  destruct t as [[name cs]|ts]; simpl; [done|].
  rewrite <-!list_fmap_compose. apply list_fmap_ext. by intros _ [name cs] _.
Qed.

Lemma pipeline_rows df :
  is_Some (pipeline df) ↔ Forall (λ row, row ≠ []) df.
Proof.
  rewrite <-(add_rows_is_Some df empty). unfold pipeline, build_parent_child_map.
  destruct (add_rows empty df); simpl; split; try done; by intros [? ?].
Qed.

Lemma build_tree_roots_nil pcm :
  (build_tree pcm = Forest [] → pcm = []) ∧ (pcm = [] → build_tree pcm = Forest []).
Proof.
  split; [|by intros ->]. rewrite <-roots_nil. unfold build_tree.
  by destruct (roots pcm) as [|r [|r' rs]].
Qed.

(** X20: the conversion returns the trees of the roots of the map, in their
    order, with the names cleaned and the shapes as [build_tree] made
    them. *)
Theorem pipeline_trees df t :
  pipeline df = Some t →
  ∃ pcm, build_parent_child_map df = Some pcm ∧
         root_names t = clean_name <$> roots pcm ∧
         shape_of <$> trees t = shape_of <$> trees (build_tree pcm) ∧
         names_of <$> trees t
         = (λ n, clean_name <$> names_of n) <$> trees (build_tree pcm).
Proof.
  unfold pipeline.
  destruct (build_parent_child_map df) as [pcm|]; [|done]. simpl.
  intros [= <-]. exists pcm. split_and!; [done| | |].
  - by rewrite root_names_transform, root_names_build_tree.
  - destruct (build_tree pcm) as [n|ts]; simpl.
    + by rewrite transform_names_shape.
    + rewrite <-list_fmap_compose. apply list_fmap_ext.
      intros _ n _. apply transform_names_shape.
  - destruct (build_tree pcm) as [n|ts]; simpl.
    + by rewrite transform_names_names.
    + rewrite <-list_fmap_compose. apply list_fmap_ext.
      intros _ n _. apply transform_names_names.
Qed.

Lemma pipeline_trees_witness :
  ∃ pcm, build_parent_child_map two_rows = Some pcm ∧
         root_names (Single (Node "Root" [Node "Child" [Node "Grandchild" []];
                                          Node "Child" []]))
         = clean_name <$> roots pcm ∧
         shape_of <$> trees (Single (Node "Root" [Node "Child" [Node "Grandchild" []];
                                                  Node "Child" []]))
         = shape_of <$> trees (build_tree pcm) ∧
         names_of <$> trees (Single (Node "Root" [Node "Child" [Node "Grandchild" []];
                                                  Node "Child" []]))
         = (λ n, clean_name <$> names_of n) <$> trees (build_tree pcm).
Proof. apply (pipeline_trees two_rows). by vm_compute. Defined.

Lemma first_occurrences_nil l : first_occurrences l = [] ↔ l = [].
Proof. by destruct l. Qed.

(** X21: the conversion gives the empty list of trees exactly for the tables
    in which every row has a first cell and none has a parent: the first
    cell is blank or a marker of a missing value in every row. *)
Theorem pipeline_empty_forest df :
  pipeline df = Some (Forest [])
  ↔ Forall (λ row, row ≠ [] ∧ row_entry row = None) df.
Proof.
  assert (Forall (λ row, row ≠ [] ∧ row_entry row = None) df
          ↔ Forall (λ row, row ≠ []) df ∧ entries df = []) as ->.
  { unfold entries. induction df as [|row df IH]; simpl.
    - split; [done|constructor].
    - rewrite !Forall_cons, IH. destruct (row_entry row); naive_solver. }
  rewrite <-pipeline_rows. unfold pipeline.
  destruct (build_parent_child_map df) as [pcm|] eqn:Hb; simpl;
    [|split; [done|by intros [[? ?] _]]].
  apply build_parent_child_map_holds in Hb as [Hkeys _].
  assert (entries df = [] ↔ pcm = []) as ->.
  { unfold keys in Hkeys. destruct pcm, (entries df); simpl in *; done. }
  destruct (build_tree_roots_nil pcm) as [Hnil Hsome]. split.
  - intros Ht. split; [by eexists|]. apply Hnil.
    destruct (build_tree pcm) as [n|ns]; [done|]. injection Ht as Ht.
    by apply fmap_nil_inv in Ht as ->.
  - intros [_ ->]. done.
Qed.

Lemma pipeline_empty_forest_witness :
  pipeline [[" "; "x"]; ["NaN"; "y"]] = Some (Forest []).
Proof.
  apply (proj2 (pipeline_empty_forest [[" "; "x"]; ["NaN"; "y"]])).
  by repeat constructor.
Defined.

End PipelineMore.

(** * Properties on all of Unicode *)

(** ** strip and the delimiters, whatever the blanks are *)

Section UnicodeStrip.
Context (isspace : N → bool).

Local Abbreviation lstrip := (U.lstrip isspace).
Local Abbreviation rstrip := (U.rstrip isspace).
Local Abbreviation strip := (U.strip isspace).

Lemma U_rstrip_idemp s : rstrip (rstrip s) = rstrip s.
Proof.
  induction s as [|c s IH]; simpl; [done|].
  destruct (rstrip s) as [|d r] eqn:E.
  - destruct (isspace c) eqn:Ec; simpl; [done|]. by rewrite Ec.
  - change (rstrip (c :: d :: r)) with
      (match rstrip (d :: r) with
       | [] => if isspace c then [] else [c]
       | r' => c :: r'
       end).
    by rewrite IH.
Qed.

Lemma U_lstrip_idemp s : lstrip (lstrip s) = lstrip s.
Proof.
  induction s as [|c s IH]; simpl; [done|].
  destruct (isspace c) eqn:Ec; [done|]. simpl. by rewrite Ec.
Qed.

Lemma U_rstrip_lstrip s : rstrip (lstrip s) = lstrip (rstrip s).
Proof.
  induction s as [|c s IH]; simpl; [done|].
  destruct (isspace c) eqn:Ec.
  - rewrite IH. destruct (rstrip s); simpl; [done|]. by rewrite Ec.
  - simpl. destruct (rstrip s); simpl; by rewrite Ec.
Qed.

Lemma U_strip_idemp s : strip (strip s) = strip s.
Proof.
  unfold U.strip. by rewrite U_rstrip_lstrip, U_rstrip_idemp, U_lstrip_idemp.
Qed.

(** [strip] takes blanks away and nothing else. *)
Lemma U_forallb_lstrip (P : N → bool) s :
  (∀ c, isspace c = true → P c = true) →
  forallb P (lstrip s) = forallb P s.
Proof.
  intros HP. induction s as [|c s IH]; simpl; [done|].
  destruct (isspace c) eqn:Hc; [|done]. by rewrite IH, (HP c Hc).
Qed.

Lemma U_forallb_rstrip (P : N → bool) s :
  (∀ c, isspace c = true → P c = true) →
  forallb P (rstrip s) = forallb P s.
Proof.
  intros HP. induction s as [|c s IH]; simpl; [done|].
  rewrite <-IH. destruct (rstrip s) as [|d r]; simpl; [|done].
  destruct (isspace c) eqn:Hc; simpl; [by rewrite (HP c Hc)|].
  by rewrite andb_true_r.
Qed.

Lemma U_forallb_strip (P : N → bool) s :
  (∀ c, isspace c = true → P c = true) →
  forallb P (strip s) = forallb P s.
Proof.
  intros HP. unfold U.strip. by rewrite U_forallb_lstrip, U_forallb_rstrip.
Qed.

(** What holds of every character holds of those that [strip] leaves. *)
Lemma U_forallb_strip_keeps (P : N → bool) s :
  forallb P s = true → forallb P (strip s) = true.
Proof.
  intros H. unfold U.strip.
  assert (forallb P (rstrip s) = true) as Hr.
  { clear -H. induction s as [|c s IH]; simpl in *; [done|].
    apply andb_true_iff in H as [Hc Hs]. specialize (IH Hs).
    destruct (rstrip s); simpl in *.
    - destruct (isspace c); simpl; [done|]. by rewrite Hc.
    - by rewrite Hc, IH. }
  clear H. induction (rstrip s) as [|c r IH]; simpl in *; [done|].
  apply andb_true_iff in Hr as [Hc Hs].
  destruct (isspace c); [auto|]. simpl. by rewrite Hc, Hs.
Qed.

Lemma U_strip_nil s : strip s = [] ↔ forallb isspace s = true.
Proof.
  unfold U.strip. rewrite <-(U_forallb_rstrip isspace s) by done.
  induction (rstrip s) as [|c r IH]; simpl; [done|].
  destruct (isspace c); simpl; [done|]. split; discriminate.
Qed.

Lemma U_length_lstrip s : length (lstrip s) ≤ length s.
Proof.
  induction s as [|c s IH]; simpl; [done|]. destruct (isspace c); simpl; lia.
Qed.

Lemma U_length_rstrip_blank s c :
  last s = Some c → isspace c = true → length (rstrip s) < length s.
Proof.
  intros Hlast Hc. induction s as [|d s IH]; [done|].
  destruct s as [|e s].
  - injection Hlast as ->. simpl. rewrite Hc. simpl. lia.
  - specialize (IH Hlast).
    change (rstrip (d :: e :: s)) with
      (match rstrip (e :: s) with
       | [] => if isspace d then [] else [d]
       | r => d :: r
       end).
    destruct (rstrip (e :: s)); simpl in *; [destruct (isspace d); simpl|]; lia.
Qed.

(** A trimmed string does not end with a blank. *)
Lemma U_trimmed_last s c :
  strip s = s → last s = Some c → isspace c = false.
Proof.
  intros Hs Hlast. destruct (isspace c) eqn:Hc; [|done]. exfalso.
  pose proof (U_length_rstrip_blank s c Hlast Hc).
  pose proof (U_length_lstrip (rstrip s)).
  unfold U.strip in Hs. rewrite Hs in *. lia.
Qed.

Lemma U_has_delim_cons c s :
  U.has_delim (c :: s) = U.is_delim c || U.has_delim s.
Proof.
  unfold U.has_delim, U.is_delim.
  rewrite !(bool_decide_ext _ _ (elem_of_cons s _ c)).
  rewrite !bool_decide_or.
  rewrite (bool_decide_ext (U.comma = c) (c = U.comma)) by done.
  rewrite (bool_decide_ext (U.semicolon = c) (c = U.semicolon)) by done.
  rewrite (bool_decide_ext (U.bar = c) (c = U.bar)) by done.
  repeat destruct (bool_decide _); done.
Qed.

Lemma U_has_delim_forallb s :
  U.has_delim s = negb (forallb (λ c, negb (U.is_delim c)) s).
Proof.
  induction s as [|c s IH]; [done|].
  rewrite U_has_delim_cons, IH. simpl. by destruct (U.is_delim c).
Qed.

Lemma U_has_delim_strip s : U.has_delim s = false → U.has_delim (strip s) = false.
Proof.
  rewrite !U_has_delim_forallb, !negb_false_iff. apply U_forallb_strip_keeps.
Qed.

Lemma U_split_scan_cons b s : ∃ p ps, U.split_scan b s = p :: ps.
Proof.
  revert b. induction s as [|c s IH]; intros b; simpl; [by eexists _, _|].
  destruct (U.is_delim c).
  - destruct b; [apply IH|by eexists _, _].
  - destruct (IH false) as (p & ps & ->). by eexists _, _.
Qed.

Lemma U_split_scan_no_delim b s p :
  p ∈ U.split_scan b s → U.has_delim p = false.
Proof.
  revert b p. induction s as [|c s IH]; intros b p; simpl.
  - by intros ->%list_elem_of_singleton.
  - destruct (U.is_delim c) eqn:Hc.
    + destruct b; [apply IH|].
      intros [->|Hp]%elem_of_cons; [done|by eapply IH].
    + destruct (U_split_scan_cons false s) as (q & qs & Hq). rewrite Hq.
      intros [->|Hp]%elem_of_cons.
      * rewrite U_has_delim_cons, Hc. simpl. apply (IH false). rewrite Hq. by left.
      * apply (IH false). rewrite Hq. by right.
Qed.

Lemma U_split_scan_whole b s :
  U.has_delim s = false → U.split_scan b s = [s].
Proof.
  revert b. induction s as [|c s IH]; intros b; simpl; [done|].
  rewrite U_has_delim_cons. intros [-> Hs]%orb_false_iff.
  by rewrite (IH false Hs).
Qed.

(** Blank or delimiter everywhere in [s]: blank everywhere in the parts
    of [s]. *)
Lemma U_split_scan_blank b s :
  Forall (λ p, forallb isspace p = true) (U.split_scan b s)
  ↔ forallb (λ c, U.is_delim c || isspace c) s = true.
Proof.
  revert b. induction s as [|c s IH]; intros b; simpl.
  - split; [done|by repeat constructor].
  - destruct (U.is_delim c); simpl.
    + destruct b; [apply IH|]. rewrite Forall_cons, IH. naive_solver.
    + specialize (IH false).
      destruct (U_split_scan_cons false s) as (q & qs & Hq). rewrite Hq in *.
      rewrite andb_true_iff, <-IH, !Forall_cons. simpl.
      rewrite andb_true_iff. tauto.
Qed.

End UnicodeStrip.

(** ** normalize_cell on all of Unicode *)

Section UnicodeNormalize.
Context (isspace : N → bool) (lower : U.str → U.str).

Local Abbreviation strip := (U.strip isspace).
Local Abbreviation normalize_cell := (U.normalize_cell isspace lower).
Local Abbreviation trimmed := (U.trimmed isspace).
Local Abbreviation lowercase := (U.lowercase lower).
Local Abbreviation token := (U.token isspace lower).
Local Abbreviation blank_or_delim := (λ c, U.is_delim c || isspace c).

(** What is used of [str.lower]: it gives the empty string for the empty
    string only; applied twice it gives what it gives applied once; it
    leaves blanks at the ends and nowhere else, so it can be swapped
    with [strip]; and it neither makes nor unmakes a delimiter or a
    blank. *)
Hypothesis lower_nil : ∀ s, lower s = [] → s = [].
Hypothesis lower_idemp : ∀ s, lower (lower s) = lower s.
Hypothesis strip_lower : ∀ s, strip (lower s) = lower (strip s).
Hypothesis has_delim_lower : ∀ s, U.has_delim (lower s) = U.has_delim s.
Hypothesis blank_lower :
  ∀ s, forallb blank_or_delim (lower s) = forallb blank_or_delim s.

Lemma U_is_missing_false s :
  U.is_missing s = false ↔ s ≠ U.of_ascii "nan" ∧ s ≠ U.of_ascii "none".
Proof.
  unfold U.is_missing. rewrite bool_decide_eq_false, !elem_of_cons, elem_of_nil.
  tauto.
Qed.

Lemma U_normalized_part p :
  trimmed (lower (strip p)) ∧ lowercase (lower (strip p)) ∧
  (strip p ≠ [] → lower (strip p) ≠ []).
Proof.
  unfold U.trimmed, U.lowercase. split_and!.
  - by rewrite strip_lower, U_strip_idemp.
  - apply lower_idemp.
  - intros Hp H. by apply Hp, lower_nil.
Qed.

(** The two ways through [normalize_cell] that return something. *)
Lemma U_normalize_cell_cases cell t :
  t ∈ normalize_cell cell →
  lower (strip cell) ≠ [] ∧ U.is_missing (lower (strip cell)) = false ∧
  ((U.has_delim (lower (strip cell)) = true ∧
    ∃ p, t = lower (strip p) ∧ strip p ≠ [] ∧
         p ∈ U.SPLIT_RE_split (lower (strip cell))) ∨
   (U.has_delim (lower (strip cell)) = false ∧ t = lower (strip cell))).
Proof.
  unfold U.normalize_cell. intros Ht.
  case_bool_decide as Hne; [by apply elem_of_nil in Ht|]. simpl in Ht.
  destruct (U.is_missing _) eqn:Hm; [by apply elem_of_nil in Ht|].
  split_and!; [done..|].
  destruct (U.has_delim _) eqn:Hd; [left|right]; split; try done.
  - apply list_elem_of_fmap in Ht as (p & -> & [Hp Hin]%list_elem_of_filter).
    eauto.
  - by apply list_elem_of_singleton in Ht.
Qed.

(** C6, amended: every element of [normalize_cell cell] is trimmed,
    lower-case and not empty, whatever the characters of the cell; when
    the trimmed, lower-cased text of the cell holds no delimiter the
    element is a token, that is, it is not ["nan"] or ["none"] either.
    (The markers are looked for in the whole cell only, not in the parts
    of a cell that is split.) *)
Theorem unicode_normalize_cell_elements cell t :
  t ∈ normalize_cell cell →
  trimmed t ∧ lowercase t ∧ t ≠ [] ∧
  (U.has_delim (lower (strip cell)) = false → token t).
Proof.
  intros (Hne & Hm & [(Hd & p & -> & Hp & _)|(Hd & ->)])%U_normalize_cell_cases.
  - destruct (U_normalized_part p) as (? & ? & Hnn).
    split_and!; [done|done|by apply Hnn|]. by rewrite Hd.
  - destruct (U_normalized_part cell) as (? & ? & _).
    apply U_is_missing_false in Hm as [? ?].
    split_and!; [done..|]. intros _. by split_and!.
Qed.

(** C7, amended: a token that holds none of the delimiters comma,
    semicolon and bar is normalized to itself, alone, whatever its
    characters. *)
Theorem unicode_normalize_cell_token t :
  token t → U.has_delim t = false → normalize_cell t = [t].
Proof.
  intros (Ht & Hl & Hne & Hnan & Hnone) Hd. unfold U.normalize_cell.
  rewrite Ht, Hl, Hd. rewrite bool_decide_eq_false_2 by done. simpl.
  by rewrite (proj2 (U_is_missing_false t)).
Qed.

Lemma U_normalize_cell_delim_free cell t :
  t ∈ normalize_cell cell → U.has_delim t = false.
Proof.
  intros (_ & _ & [(_ & p & -> & _ & Hp)|(Hd & ->)])%U_normalize_cell_cases;
    [|done].
  rewrite has_delim_lower. by eapply U_has_delim_strip, U_split_scan_no_delim.
Qed.

(** X2: normalizing is stable, whatever the characters: a token that
    [normalize_cell] has returned, the markers ["nan"] and ["none"] apart,
    is normalized to itself. *)
Theorem unicode_normalize_cell_stable cell t :
  t ∈ normalize_cell cell →
  t ≠ U.of_ascii "nan" → t ≠ U.of_ascii "none" →
  normalize_cell t = [t].
Proof.
  intros Ht Hnan Hnone.
  pose proof (U_normalize_cell_delim_free cell t Ht) as Hd.
  apply U_normalize_cell_cases in Ht
    as (Hne & _ & [(_ & p & -> & Hp & _)|(_ & ->)]).
  - destruct (U_normalized_part p) as (Htr & Hlo & Hnn).
    unfold U.normalize_cell. rewrite Htr, Hlo, Hd.
    rewrite bool_decide_eq_false_2 by auto. simpl.
    by rewrite (proj2 (U_is_missing_false _)).
  - destruct (U_normalized_part cell) as (Htr & Hlo & _).
    unfold U.normalize_cell. rewrite Htr, Hlo, Hd.
    rewrite bool_decide_eq_false_2 by done. simpl.
    by rewrite (proj2 (U_is_missing_false _)).
Qed.

(** X3: the case of a cell and the blanks around it do not count:
    [normalize_cell] gives the same for the cell, for the cell in lower
    case and for the cell stripped. *)
Theorem unicode_normalize_cell_case_blanks cell :
  normalize_cell (lower cell) = normalize_cell cell ∧
  normalize_cell (strip cell) = normalize_cell cell.
Proof.
  unfold U.normalize_cell. by rewrite strip_lower, lower_idemp, U_strip_idemp.
Qed.

Lemma U_filter_nil (P : U.str → Prop) `{!∀ x, Decision (P x)}
    (l : list U.str) :
  filter P l = [] ↔ Forall (λ x, ¬ P x) l.
Proof.
  induction l as [|x l IH]; [by split; [constructor|]|].
  rewrite filter_cons, Forall_cons. case_decide; [|by rewrite IH; tauto].
  split; [done|tauto].
Qed.

(** X4: a cell gives no token exactly when its trimmed, lower-cased text
    is a marker of a missing value, or the cell is made of blanks and
    delimiters only (the empty cell is such a cell). *)
Theorem unicode_normalize_cell_empty cell :
  normalize_cell cell = []
  ↔ U.is_missing (lower (strip cell)) = true ∨
    forallb blank_or_delim cell = true.
Proof.
  assert (forallb blank_or_delim (lower (strip cell))
          = forallb blank_or_delim cell) as <-.
  { rewrite blank_lower. apply U_forallb_strip. intros c ->. apply orb_true_r. }
  pose proof (strip_lower (strip cell)) as Htrim.
  rewrite U_strip_idemp in Htrim.
  unfold U.normalize_cell. case_bool_decide as Hne.
  { rewrite Hne. split; [by right|done]. }
  simpl. destruct (U.is_missing _) eqn:Hm; [by split; [left|]|].
  destruct (U.has_delim _) eqn:Hd.
  - unfold U.SPLIT_RE_split.
    rewrite <-(U_split_scan_blank isspace false). split.
    + intros Hnil%fmap_nil_inv. right. apply U_filter_nil in Hnil.
      eapply Forall_impl; [exact Hnil|]. intros p Hp. simpl in Hp.
      apply U_strip_nil. by apply dec_stable.
    + intros [?|Hall]; [done|].
      rewrite (proj2 (U_filter_nil _ _)); [done|].
      eapply Forall_impl; [exact Hall|]. intros p Hp. simpl in *.
      apply U_strip_nil in Hp. by intros ?.
  - split; [done|]. intros [?|Hall]; [done|]. exfalso. apply Hne.
    rewrite <-Htrim. apply U_strip_nil.
    rewrite U_has_delim_forallb, negb_false_iff in Hd.
    clear -Hall Hd. induction (lower (strip cell)) as [|c s IH]; [done|].
    simpl in *. apply andb_true_iff in Hall as [Hc Hs].
    apply andb_true_iff in Hd as [Hdc Hds].
    rewrite IH by done. destruct (U.is_delim c); [done|].
    simpl in Hc. by rewrite Hc.
Qed.

End UnicodeNormalize.

(** ** clean_name on all of Unicode *)

Section UnicodeCleanName.
Context (isdigit : N → bool) (capitalize : U.str → U.str).

Local Abbreviation skip_digits := (U.skip_digits isdigit).
Local Abbreviation sub_empty := (U.NUM_SUFFIX_RE_sub_empty isdigit).
Local Abbreviation strip_trailing_digits := (U.strip_trailing_digits isdigit).
Local Abbreviation clean_name := (U.clean_name isdigit capitalize).

Lemma U_skip_digits_nil s :
  skip_digits s = [] ↔ strip_trailing_digits s = [].
Proof.
  induction s as [|c s IH]; simpl; [done|].
  destruct (isdigit c).
  - rewrite IH. by destruct (strip_trailing_digits s).
  - split; [done|]. by destruct (strip_trailing_digits s).
Qed.

Lemma U_skip_digits_forallb s :
  skip_digits s = [] ↔ forallb isdigit s = true.
Proof.
  induction s as [|c s IH]; simpl; [done|].
  destruct (isdigit c); simpl; [done|]. split; discriminate.
Qed.

Lemma U_skip_digits_newline s :
  skip_digits s = [U.newline] → U.ends_with_newline s = true.
Proof.
  unfold U.ends_with_newline. rewrite bool_decide_eq_true.
  induction s as [|c s IH]; simpl; [done|].
  destruct (isdigit c).
  - intros H. specialize (IH H). destruct s; [done|]. exact IH.
  - by intros [= -> ->].
Qed.

Lemma U_ends_with_newline_tail c s :
  U.ends_with_newline (c :: s) = false →
  s = [] ∨ U.ends_with_newline s = false.
Proof.
  unfold U.ends_with_newline. destruct s as [|d s]; [by left|right]. done.
Qed.

(** On a string that does not end with a line feed the pattern deletes
    the trailing digits and nothing else. *)
Lemma U_sub_empty_spec s :
  U.ends_with_newline s = false → sub_empty s = strip_trailing_digits s.
Proof.
  induction s as [|c s IH]; [done|]. intros Hnl.
  assert (sub_empty s = strip_trailing_digits s ∧ skip_digits s ≠ [U.newline])
    as [IH' Hskip].
  { destruct (U_ends_with_newline_tail _ _ Hnl) as [->|Hs]; [done|].
    split; [by apply IH|]. intros H%U_skip_digits_newline. congruence. }
  cbn [U.NUM_SUFFIX_RE_sub_empty U.strip_trailing_digits]. unfold U.at_dollar.
  rewrite (bool_decide_eq_false_2 _ Hskip), orb_false_r, IH'.
  destruct (decide (skip_digits s = [])) as [He|He].
  - rewrite bool_decide_eq_true_2 by done.
    apply U_skip_digits_nil in He as He'. rewrite He, He'.
    by destruct (isdigit c).
  - rewrite (bool_decide_eq_false_2 _ He), andb_false_r.
    destruct (strip_trailing_digits s) eqn:E; [|done].
    by apply U_skip_digits_nil in E.
Qed.

Lemma U_clean_name_spec name :
  capitalize [] = [] →
  U.ends_with_newline name = false →
  clean_name name = capitalize (strip_trailing_digits name).
Proof.
  intros Hcap Hnl. unfold U.clean_name. case_bool_decide as Hn.
  - subst. simpl. by rewrite Hcap.
  - by rewrite U_sub_empty_spec.
Qed.

Lemma U_sub_empty_nil s : sub_empty s = [] ↔ forallb isdigit s = true.
Proof.
  destruct s as [|c s]; [done|]. simpl.
  destruct (isdigit c); simpl; [|split; discriminate].
  rewrite <-U_skip_digits_forallb. unfold U.at_dollar.
  destruct (skip_digits s) as [|d r]; [done|].
  rewrite bool_decide_eq_false_2 by done. simpl.
  case_bool_decide; split; discriminate.
Qed.

(** X15: a name is cleaned to the empty string exactly when it is made of
    digits only, the empty name and every name that is a number, for
    every class of digits and every [capitalize] that gives the empty
    string for the empty string alone. *)
Theorem unicode_clean_name_nil name :
  capitalize [] = [] → (∀ s, capitalize s = [] → s = []) →
  clean_name name = [] ↔ forallb isdigit name = true.
Proof.
  intros Hcap Hinj. unfold U.clean_name. case_bool_decide as Hn; [by subst|].
  rewrite <-U_sub_empty_nil. split; [apply Hinj|by intros ->].
Qed.

End UnicodeCleanName.

(** ** The ASCII tables satisfy what was asked of the tables *)

Module Ascii7Facts.
Import Ascii7.

Ltac n_cases :=
  repeat (match goal with
          | |- context [(?a <=? ?b)%N] => destruct (N.leb_spec a b)
          end; simpl; try lia);
  try done.

Lemma ascii7_isspace_lower_char c : isspace (lower_char c) = isspace c.
Proof.
  unfold isspace, lower_char.
  destruct (N.leb_spec 65 c), (N.leb_spec c 90); simpl; n_cases.
Qed.

Lemma ascii7_lower_char_idemp c : lower_char (lower_char c) = lower_char c.
Proof.
  unfold lower_char.
  destruct (N.leb_spec 65 c), (N.leb_spec c 90); simpl; n_cases.
Qed.

Lemma ascii7_is_delim_lower_char c : U.is_delim (lower_char c) = U.is_delim c.
Proof.
  unfold lower_char, U.is_delim, U.comma, U.semicolon, U.bar.
  destruct (N.leb_spec 65 c), (N.leb_spec c 90); simpl; try done.
  rewrite !bool_decide_eq_false_2 by lia. done.
Qed.

Lemma ascii7_lower_nil s : lower s = [] → s = [].
Proof. apply fmap_nil_inv. Qed.

Lemma ascii7_lower_idemp s : lower (lower s) = lower s.
Proof.
  unfold lower. rewrite <-list_fmap_compose. apply list_fmap_ext.
  intros _ c _. apply ascii7_lower_char_idemp.
Qed.

Lemma ascii7_lstrip_lower s : U.lstrip isspace (lower s) = lower (U.lstrip isspace s).
Proof.
  induction s as [|c s IH]; simpl; [done|].
  rewrite ascii7_isspace_lower_char. by destruct (isspace c).
Qed.

Lemma ascii7_rstrip_lower s : U.rstrip isspace (lower s) = lower (U.rstrip isspace s).
Proof.
  induction s as [|c s IH]; simpl; [done|].
  change (lower_char <$> s) with (lower s). rewrite IH, ascii7_isspace_lower_char.
  destruct (U.rstrip isspace s); simpl; [by destruct (isspace c)|done].
Qed.

Lemma ascii7_strip_lower s : U.strip isspace (lower s) = lower (U.strip isspace s).
Proof. unfold U.strip. by rewrite ascii7_rstrip_lower, ascii7_lstrip_lower. Qed.

Lemma ascii7_has_delim_lower s : U.has_delim (lower s) = U.has_delim s.
Proof.
  induction s as [|c s IH]; [done|]. simpl.
  change (lower_char <$> s) with (lower s).
  by rewrite !U_has_delim_cons, ascii7_is_delim_lower_char, IH.
Qed.

Lemma ascii7_blank_lower s :
  forallb (λ c, U.is_delim c || isspace c) (lower s)
  = forallb (λ c, U.is_delim c || isspace c) s.
Proof.
  induction s as [|c s IH]; [done|]. simpl.
  change (lower_char <$> s) with (lower s).
  by rewrite ascii7_is_delim_lower_char, ascii7_isspace_lower_char, IH.
Qed.

Lemma ascii7_capitalize_nil : capitalize [] = [].
Proof. done. Qed.

Lemma ascii7_capitalize_not_nil s : capitalize s = [] → s = [].
Proof. by destruct s. Qed.

End Ascii7Facts.

(** ** The string functions at the ASCII tables *)

Section UnicodeAtAscii.
Import Ascii7Facts.

Local Abbreviation a := U.of_ascii.
Local Abbreviation normalize_cell := (U.normalize_cell Ascii7.isspace Ascii7.lower).
Local Abbreviation clean_name := (U.clean_name Ascii7.isdigit Ascii7.capitalize).

(** C5, as the claim states it, fails: in ["john2\n"] no digit is
    trailing, and [clean_name] removes the [2], [$] matching before the
    line feed that ends the name. *)
Lemma clean_name_before_newline :
  clean_name (a "john2" ++ [U.newline])
  ≠ Ascii7.capitalize
      (U.strip_trailing_digits Ascii7.isdigit (a "john2" ++ [U.newline])).
Proof. by vm_compute. Qed.

(** C5, amended: on a name that does not end with a line feed
    [clean_name] removes the run of digits that ends the name and then
    capitalizes, for every class of digits [\d] and every [capitalize]
    (which gives the empty string for the empty string); such a name
    that no digit ends is capitalized and nothing else; a trimmed name
    is such a name, the line feed being a blank; and ["john2"] becomes
    ["John"], ["mary"] becomes ["Mary"]. *)
Theorem unicode_clean_name_trailing_digits :
  (∀ isdigit capitalize name,
     capitalize [] = [] →
     U.ends_with_newline name = false →
     U.clean_name isdigit capitalize name
     = capitalize (U.strip_trailing_digits isdigit name) ∧
     (U.strip_trailing_digits isdigit name = name →
      U.clean_name isdigit capitalize name = capitalize name)) ∧
  (∀ isspace name,
     isspace U.newline = true → U.trimmed isspace name →
     U.ends_with_newline name = false) ∧
  clean_name (a "john2") = a "John" ∧
  clean_name (a "mary") = a "Mary".
Proof.
  split_and!; [| |by vm_compute..].
  - intros isdigit capitalize name Hcap Hnl.
    pose proof (U_clean_name_spec isdigit capitalize name Hcap Hnl) as H.
    split; [done|]. intros Hno. by rewrite H, Hno.
  - intros isspace name Hnl Htrim. apply bool_decide_eq_false. intros Hlast.
    pose proof (U_trimmed_last isspace name U.newline Htrim Hlast). congruence.
Qed.

Lemma unicode_clean_name_trailing_digits_witness :
  clean_name (a "anna12")
  = Ascii7.capitalize (U.strip_trailing_digits Ascii7.isdigit (a "anna12")) ∧
  (U.strip_trailing_digits Ascii7.isdigit (a "anna12") = a "anna12" →
   clean_name (a "anna12") = Ascii7.capitalize (a "anna12")).
Proof.
  apply (proj1 unicode_clean_name_trailing_digits
           Ascii7.isdigit Ascii7.capitalize (a "anna12")).
  - reflexivity.
  - apply (proj1 (proj2 unicode_clean_name_trailing_digits)
             Ascii7.isspace (a "anna12")); by vm_compute.
Defined.

(** C6, as the claim states it, fails: a part of a split cell can be a
    marker of a missing value. *)
Lemma unicode_normalize_cell_part_missing :
  ¬ (∀ t, t ∈ normalize_cell (a "nan,bob") →
          U.token Ascii7.isspace Ascii7.lower t).
Proof.
  intros H. destruct (H (a "nan")) as (_ & _ & _ & Hnan & _).
  - vm_compute. by left.
  - done.
Qed.

Lemma unicode_normalize_cell_elements_witness :
  U.trimmed Ascii7.isspace (a "bob") ∧ U.lowercase Ascii7.lower (a "bob") ∧
  a "bob" ≠ [] ∧
  (U.has_delim (Ascii7.lower (U.strip Ascii7.isspace (a " Bob "))) = false →
   U.token Ascii7.isspace Ascii7.lower (a "bob")).
Proof.
  apply (unicode_normalize_cell_elements Ascii7.isspace Ascii7.lower
           ascii7_lower_nil ascii7_lower_idemp ascii7_strip_lower (a " Bob ") (a "bob")).
  vm_compute. by left.
Defined.

(** C7, as the claim states it, fails: ["a,b"] is trimmed, lower-case,
    not empty and not a marker, and it is split in two. *)
Lemma unicode_normalize_cell_token_split :
  U.token Ascii7.isspace Ascii7.lower (a "a,b") ∧
  normalize_cell (a "a,b") ≠ [a "a,b"].
Proof. split; [by repeat split|]. by vm_compute. Qed.

Lemma unicode_normalize_cell_token_witness :
  normalize_cell (a "bob") = [a "bob"].
Proof.
  apply (unicode_normalize_cell_token Ascii7.isspace Ascii7.lower (a "bob"));
    [by repeat split|reflexivity].
Defined.

Lemma unicode_normalize_cell_stable_witness :
  normalize_cell (a "bob") = [a "bob"].
Proof.
  apply (unicode_normalize_cell_stable Ascii7.isspace Ascii7.lower
           ascii7_lower_nil ascii7_lower_idemp ascii7_strip_lower ascii7_has_delim_lower
           (a "Al; Bob") (a "bob")); [|done..].
  vm_compute. right. by left.
Defined.

Lemma unicode_normalize_cell_case_blanks_witness :
  normalize_cell (Ascii7.lower (a " Al; Bob ")) = normalize_cell (a " Al; Bob ") ∧
  normalize_cell (U.strip Ascii7.isspace (a " Al; Bob "))
  = normalize_cell (a " Al; Bob ").
Proof.
  apply (unicode_normalize_cell_case_blanks Ascii7.isspace Ascii7.lower
           ascii7_lower_idemp ascii7_strip_lower).
Defined.

Lemma unicode_normalize_cell_empty_witness : normalize_cell (a " ,; | ") = [].
Proof.
  apply (proj2 (unicode_normalize_cell_empty Ascii7.isspace Ascii7.lower
                  ascii7_strip_lower ascii7_blank_lower (a " ,; | "))).
  by right.
Defined.

Lemma unicode_clean_name_nil_witness : clean_name (a "2024") = [].
Proof.
  by apply (proj2 (unicode_clean_name_nil Ascii7.isdigit Ascii7.capitalize
                     (a "2024") ascii7_capitalize_nil ascii7_capitalize_not_nil)).
Defined.

End UnicodeAtAscii.
